(** * Gateway relay service: sync checker and application resolution

    A shallow embedding of [SyncChecker.consensusFilter]
    (src/services/sync-checker.ts) and of the application lookups of
    [V1Controller] (controllers/v1.controller.js), with the properties the
    specification states about them and further properties of the code:
    what a run sends, records and writes, what one call leaves for the next,
    and [V1Controller.checkDebug].

    Conventions of the model.
    - JavaScript strings are byte strings ([string]); the public keys, chain
      identifiers and cache keys the gateway handles are ASCII, for which the
      code-unit order of JavaScript and the byte order used here coincide.
    - JavaScript numbers that hold block heights are [jsnum]: an integer, an
      infinity or NaN.  Arithmetic on the integers is exact, as it is in
      JavaScript below 2^53.
    - A run is one call, taken alone: what other calls do to the cache while
      it runs is not part of the model.
    - Redis is a finite map from keys to strings; every command sent to it is
      also recorded, with its arguments, in the trace of the run.  Expiry is
      not simulated: the TTL of a write is visible in the recorded command.
    - The service log entries that the metrics recorder keeps in the same
      cache are hashes, not strings.  The map [redis] is the string-valued
      part of the key space; every update of an entry is recorded in the
      trace, and what an entry holds is what the updates of the trace add up
      to.  The key of an entry is never the session key or the lock key of the
      chain it belongs to, which is proved below.
    - The applications repository is the LoopBack repository the controller
      is wired to: [findById] rejects for an identifier it holds no record
      of.
    - The array [nodes] handed to [consensusFilter] is a mutable cell of the
      world; the function returns either that very array or a fresh one. *)

From Stdlib Require Import ZArith String Ascii List Lia QArith Qround.
From stdpp Require Import base option list gmap strings sorting.

Local Open Scope Z_scope.
Local Open Scope string_scope.

(** ** JavaScript values *)

(** Truthiness of what [redis.get] yields: [null] and the empty string are
    falsy, every other string is truthy. *)
Definition truthy (v : option string) : bool :=
  match v with
  | None => false
  | Some s => negb (String.eqb s EmptyString)
  end.

(** The numbers [parseInt] can produce. *)
Inductive jsnum : Type :=
  | NaN
  | NegInf
  | Num (z : Z)
  | PosInf.

Module JsNum.

(** [a > b] *)
Definition gt (a b : jsnum) : bool :=
  match a, b with
  | NaN, _ | _, NaN => false
  | PosInf, PosInf => false
  | PosInf, _ => true
  | _, PosInf => false
  | NegInf, _ => false
  | Num _, NegInf => true
  | Num x, Num y => Z.gtb x y
  end.

(** [a >= b] *)
Definition ge (a b : jsnum) : bool :=
  match a, b with
  | NaN, _ | _, NaN => false
  | PosInf, _ => true
  | _, NegInf => true
  | Num x, Num y => Z.geb x y
  | _, _ => false
  end.

(** [a + k] for an integer [k] *)
Definition add (a : jsnum) (k : Z) : jsnum :=
  match a with
  | Num x => Num (x + k)
  | other => other
  end.

(** [a === 0] *)
Definition is_zero (a : jsnum) : bool :=
  match a with
  | Num 0 => true
  | _ => false
  end.

(** [(a % 1) !== 0]: the remainder of NaN and of the infinities is NaN,
    which differs from 0; the remainder of an integer is 0. *)
Definition fractional (a : jsnum) : bool :=
  match a with
  | Num _ => false
  | _ => true
  end.

Definition is_int (a : jsnum) : Prop := ∃ z, a = Num z.

End JsNum.

(** ** Array.prototype.sort *)

(** [l.sort(cmp)] with a comparator that answers a negative number, zero or a
    positive number.  The sort is stable; this is the insertion form of it.
    With a comparator that is not a consistent order (NaN heights) the result
    is still a permutation of the input. *)
Section js_sort.
Context {A : Type} (cmp : A → A → Z).

Fixpoint js_insert (x : A) (l : list A) : list A :=
  match l with
  | [] => [x]
  | y :: t => if (cmp x y <=? 0)%Z then x :: y :: t else y :: js_insert x t
  end.

Fixpoint js_sort (l : list A) : list A :=
  match l with
  | [] => []
  | x :: t => js_insert x (js_sort t)
  end.
End js_sort.

(** The comparator idiom [(a > b) ? 1 : ((b > a) ? -1 : 0)] used twice in
    the sync checker. *)
Definition ternary_cmp {A} (gt : A → A → bool) (a b : A) : Z :=
  if gt a b then 1 else if gt b a then -1 else 0.

(** [a > b] on strings *)
Definition str_gt (a b : string) : bool :=
  match String.compare a b with
  | Gt => true
  | _ => false
  end.

(** [s.includes(pat)] *)
Fixpoint includes (s pat : string) : bool :=
  String.prefix pat s
  || match s with
     | EmptyString => false
     | String _ t => includes t pat
     end.

(** ** SHA-256 (FIPS 180-4), as [crypto.createHash('sha256')] computes it *)

Module SHA256.

Definition mask32 (x : Z) : Z := Z.land x 4294967295.
Definition add32 (x y : Z) : Z := mask32 (x + y).
Definition rotr (n x : Z) : Z :=
  mask32 (Z.lor (Z.shiftr x n) (Z.shiftl x (32 - n))).
Definition shr (n x : Z) : Z := Z.shiftr x n.

Definition Ch (x y z : Z) : Z :=
  Z.lxor (Z.land x y) (Z.land (Z.lxor x 4294967295) z).
Definition Maj (x y z : Z) : Z :=
  Z.lxor (Z.lxor (Z.land x y) (Z.land x z)) (Z.land y z).
Definition Sigma0 (x : Z) : Z :=
  Z.lxor (Z.lxor (rotr 2 x) (rotr 13 x)) (rotr 22 x).
Definition Sigma1 (x : Z) : Z :=
  Z.lxor (Z.lxor (rotr 6 x) (rotr 11 x)) (rotr 25 x).
Definition sigma0 (x : Z) : Z :=
  Z.lxor (Z.lxor (rotr 7 x) (rotr 18 x)) (shr 3 x).
Definition sigma1 (x : Z) : Z :=
  Z.lxor (Z.lxor (rotr 17 x) (rotr 19 x)) (shr 10 x).

(** The constants are the first thirty-two bits of the fractional parts of
    the cube roots (for the rounds) and of the square roots (for the first
    state) of the first primes. *)
Definition primes : list Z :=
  [2; 3; 5; 7; 11; 13; 17; 19; 23; 29; 31; 37; 41; 43; 47; 53; 59; 61; 67; 71; 73; 79;
   83; 89; 97; 101; 103; 107; 109; 113; 127; 131; 137; 139; 149; 151; 157; 163; 167;
   173; 179; 181; 191; 193; 197; 199; 211; 223; 227; 229; 233; 239; 241; 251; 257; 263;
   269; 271; 277; 281; 283; 293; 307; 311].

(** The largest [r] below [2 ^ bits] with [r ^ 3 <= n], bit by bit. *)
Fixpoint cube_root (bits : nat) (n r : Z) : Z :=
  match bits with
  | O => r
  | S b =>
      let r' := r + Z.shiftl 1 (Z.of_nat b) in
      cube_root b n (if (r' * r' * r' <=? n)%Z then r' else r)
  end.

Definition K : list Z :=
  Eval vm_compute in
    (λ p, mask32 (cube_root 40 (Z.shiftl p 96) 0)) <$> primes.

Record state : Type := State {
  ha : Z; hb : Z; hc : Z; hd : Z; he : Z; hf : Z; hg : Z; hh : Z
}.

Definition fraction_of_sqrt (p : Z) : Z := mask32 (Z.sqrt (Z.shiftl p 64)).

Definition H0 : state :=
  Eval vm_compute in
    State (fraction_of_sqrt 2) (fraction_of_sqrt 3) (fraction_of_sqrt 5) (fraction_of_sqrt 7)
          (fraction_of_sqrt 11) (fraction_of_sqrt 13) (fraction_of_sqrt 17) (fraction_of_sqrt 19).

(** The message: the bytes, one 1 bit, zero bits up to 56 modulo 64, and
    the bit length on eight bytes, most significant first. *)
Definition bytes_of (s : string) : list Z :=
  (λ c, Z.of_N (N_of_ascii c)) <$> list_ascii_of_string s.

Definition be_bytes (n : nat) (x : Z) : list Z :=
  (λ i, Z.land (Z.shiftr x (8 * Z.of_nat i)) 255) <$> rev (seq 0 n).

Definition pad (msg : list Z) : list Z :=
  let len := Z.of_nat (length msg) in
  let zeros := Z.to_nat ((55 - len) mod 64) in
  msg ++ 128 :: replicate zeros 0 ++ be_bytes 8 (8 * len).

Fixpoint words (l : list Z) : list Z :=
  match l with
  | b3 :: b2 :: b1 :: b0 :: t =>
      Z.lor (Z.shiftl b3 24) (Z.lor (Z.shiftl b2 16) (Z.lor (Z.shiftl b1 8) b0))
      :: words t
  | _ => []
  end.

(** The message schedule: sixteen words of the block, then forty-eight
    derived ones. *)
Fixpoint extend (n : nat) (w : list Z) : list Z :=
  match n with
  | O => w
  | S n' =>
      let t := length w in
      let at_ (k : nat) := nth (t - k) w 0 in
      extend n' (w ++ [add32 (add32 (sigma1 (at_ 2%nat)) (at_ 7%nat))
                             (add32 (sigma0 (at_ 15%nat)) (at_ 16%nat))])
  end.

Definition round (s : state) (kw : Z * Z) : state :=
  let '(k, w) := kw in
  let t1 := add32 (add32 (add32 (hh s) (Sigma1 (he s)))
                         (add32 (Ch (he s) (hf s) (hg s)) k)) w in
  let t2 := add32 (Sigma0 (ha s)) (Maj (ha s) (hb s) (hc s)) in
  State (add32 t1 t2) (ha s) (hb s) (hc s) (add32 (hd s) t1) (he s) (hf s) (hg s).

Definition compress (h : state) (block : list Z) : state :=
  let s := fold_left round (combine K (extend 48 block)) h in
  State (add32 (ha h) (ha s)) (add32 (hb h) (hb s))
        (add32 (hc h) (hc s)) (add32 (hd h) (hd s))
        (add32 (he h) (he s)) (add32 (hf h) (hf s))
        (add32 (hg h) (hg s)) (add32 (hh h) (hh s)).

Fixpoint blocks (fuel : nat) (h : state) (w : list Z) : state :=
  match fuel, w with
  | S fuel', _ :: _ => blocks fuel' (compress h (take 16 w)) (drop 16 w)
  | _, _ => h
  end.

Definition hash (msg : list Z) : state :=
  let w := words (pad msg) in
  blocks (length w) H0 w.

(** [digest('hex')] *)
Definition hex_digit (x : Z) : ascii :=
  match Z.land x 15 with
  | 0 => "0" | 1 => "1" | 2 => "2" | 3 => "3" | 4 => "4"
  | 5 => "5" | 6 => "6" | 7 => "7" | 8 => "8" | 9 => "9"
  | 10 => "a" | 11 => "b" | 12 => "c" | 13 => "d" | 14 => "e"
  | _ => "f"
  end%char.

Definition hex_word (x : Z) (rest : string) : string :=
  String (hex_digit (Z.shiftr x 28)) (String (hex_digit (Z.shiftr x 24))
 (String (hex_digit (Z.shiftr x 20)) (String (hex_digit (Z.shiftr x 16))
 (String (hex_digit (Z.shiftr x 12)) (String (hex_digit (Z.shiftr x 8))
 (String (hex_digit (Z.shiftr x 4))  (String (hex_digit x) rest))))))).

Definition hex (s : state) : string :=
  hex_word (ha s) (hex_word (hb s) (hex_word (hc s) (hex_word (hd s)
 (hex_word (he s) (hex_word (hf s) (hex_word (hg s) (hex_word (hh s) EmptyString))))))).

Definition sha256_hex (s : string) : string := hex (hash (bytes_of s)).

End SHA256.

(** ** JSON.stringify *)

Module JSON.

Local Unset Elimination Schemes.
Inductive value : Type :=
  | JString (s : string)
  | JArray (items : list value)
  | JObject (members : list (string * value)).
Local Set Elimination Schemes.

Definition dquote : ascii := "034"%char.
Definition backslash : ascii := "092"%char.

(** One character of a quoted string: the quote, the backslash and the
    control characters are escaped, every other character stands as is. *)
Definition escape (c : ascii) : string :=
  let n := Z.of_N (N_of_ascii c) in
  if (n =? 34)%Z then String backslash (String dquote EmptyString)
  else if (n =? 92)%Z then String backslash (String backslash EmptyString)
  else if (n =? 8)%Z then String backslash "b"
  else if (n =? 9)%Z then String backslash "t"
  else if (n =? 10)%Z then String backslash "n"
  else if (n =? 12)%Z then String backslash "f"
  else if (n =? 13)%Z then String backslash "r"
  else if (n <? 32)%Z then
    String backslash
      (String "u" (String "0" (String "0"
        (String (SHA256.hex_digit (Z.shiftr n 4))
          (String (SHA256.hex_digit n) EmptyString)))))
  else String c EmptyString.

Fixpoint escape_all (s : string) : string :=
  match s with
  | EmptyString => EmptyString
  | String c t => escape c ++ escape_all t
  end.

Definition quote (s : string) : string :=
  String dquote (escape_all s ++ String dquote EmptyString).

(** [JSON.stringify(v, replacer)] for a replacer that either hands a value
    back unchanged or answers [undefined]; [keep k] tells whether the member
    named [k] is handed back.  A member answered with [undefined] is left
    out of its object.  The elements of an array are visited under their
    index as name. *)
Section stringify.
Variable keep : string → bool.

Fixpoint stringify (v : value) : string :=
  match v with
  | JString s => quote s
  | JArray items => "[" ++ String.concat "," (map stringify items) ++ "]"
  | JObject members =>
      "{" ++ String.concat ","
               ((fix walk (ms : list (string * value)) : list string :=
                   match ms with
                   | [] => []
                   | (k, x) :: t =>
                       if keep k then (quote k ++ ":" ++ stringify x) :: walk t
                       else walk t
                   end) members)
          ++ "}"
  end.
End stringify.

(** [JSON.stringify(l)] for an array of strings. *)
Definition stringify_strings (l : list string) : string :=
  stringify (λ _, true) (JArray (JString <$> l)).

End JSON.

(** ** Session nodes *)

(** Modelled from the spec: the [Node] class of the service-node client is not
    part of the sources; the specification gives a session node as
    [{publicKey, serviceURL, chains[]}]. *)
Record Node : Type := {
  publicKey : string;
  serviceURL : string;
  chains : list string
}.

Global Instance Node_eq_dec : EqDecision Node.
Proof. solve_decision. Defined.

Definition node_json (n : Node) : JSON.value :=
  JSON.JObject [ ("publicKey", JSON.JString (publicKey n));
                 ("serviceURL", JSON.JString (serviceURL n));
                 ("chains", JSON.JArray (JSON.JString <$> chains n)) ].

(** [(a,b) => (a.publicKey > b.publicKey) ? 1 : ((b.publicKey > a.publicKey) ? -1 : 0)] *)
Definition by_publicKey (a b : Node) : Z :=
  ternary_cmp (λ x y, str_gt (publicKey x) (publicKey y)) a b.

(** [(k, v) => k != 'publicKey' ? v : undefined] *)
Definition replacer (k : string) : bool := negb (String.eqb k "publicKey").

(** The text that is hashed, for an array already sorted. *)
Definition canonical_json (sorted : list Node) : string :=
  JSON.stringify replacer (JSON.JArray (node_json <$> sorted)).

(** The session fingerprint of a node list. *)
Definition fingerprint (nodes : list Node) : string :=
  SHA256.sha256_hex (canonical_json (js_sort by_publicKey nodes)).

(** The digits of [digest('hex')]. *)
Definition is_hex_digit (c : ascii) : bool :=
  existsb (Ascii.eqb c) (list_ascii_of_string "0123456789abcdef").

(** The text of one node in the hashed array. *)
Definition node_text (n : Node) : string := JSON.stringify replacer (node_json n).

(** ** The world of a run: cache, relay client, logger, metrics *)

(** The configuration object of the relay client, in the order of the
    arguments of its constructor. *)
Record Configuration : Type := {
  maxDispatchers : Z;
  maxSessions : Z;
  consensusNodeCount : Z;
  requestTimeOut : Z;
  acceptDisputedResponses : bool;
  sessionBlockFrequency : Z;
  blockTime : Z;
  maxSessionRefreshRetries : Z;
  validateRelayResponses : bool;
  rejectSelfSignedCertificates : bool
}.

(** The arguments of [pocket.sendRelay] that vary; the headers and the path
    are [undefined] and the method is POST at every call of the checker. *)
Record RelayRequest : Type := {
  relay_data : string;
  relay_blockchain : string;
  relay_aat : string;
  relay_configuration : Configuration;
  relay_node : option Node;
  relay_consensus : bool;
  relay_requestID : string
}.

(** What a relay resolves to: a [RelayResponse], a [RelayError], or a value
    that is neither. *)
Inductive RelayResult : Type :=
  | RelayResponse (payload : string)
  | RelayError (message : string)
  | OtherResult.

Module NodeSyncLog.
Record t : Type := {
  node : Node;
  blockchain : string;
  blockHeight : jsnum
}.
End NodeSyncLog.

(** [process.hrtime()] or the literal pair given in its place *)
Inductive RelayStart : Type :=
  | HrTime
  | Literal (seconds nanoseconds : Z).

Module Metric.
Record t : Type := {
  requestID : string;
  applicationID : string;
  appPubKey : string;
  blockchain : string;
  serviceNode : string;
  relayStart : RelayStart;
  result : Z;
  bytes : Z;
  delivered : bool;
  fallback : bool;
  method : string;
  error : string
}.
End Metric.

(** The messages of the checker, one constructor per call of [logger.log],
    carrying the values the message is built from. *)
Inductive LogText : Type :=
  | SyncCheckResult (l : NodeSyncLog.t)
  | SyncCheckRelayError (message : string)
  | FewerThanThree
  | TopInvalid (h : jsnum)
  | NoAgreement
  | InSync (pk : string) (h : jsnum)
  | Behind (pk : string) (h : jsnum)
  | Complete (inSync : nat)
  | Challenge (r : RelayResult).

Inductive RedisArg : Type :=
  | RStr (s : string)
  | RInt (z : Z).

Global Instance RedisArg_eq_dec : EqDecision RedisArg.
Proof. solve_decision. Defined.

(** What an update of a service log entry adds to it: a success, with the
    start of the relay whose elapsed time goes to the rolling sum, or a
    failure. *)
Inductive ServiceResult : Type :=
  | Success (relayStart : RelayStart)
  | Failure.

Inductive Event : Type :=
  | RedisGet (key : string)
  | RedisSet (key value : string) (args : list RedisArg)
  | SendRelay (req : RelayRequest)
  | LoggerLog (level : string) (text : LogText) (requestID serviceNode : string)
  | RecordMetric (m : Metric.t)
  | FindById (id : string)
  | UpdateServiceLog (key : string) (result : ServiceResult).

Record World : Type := {
  redis : gmap string string;
  nodesArray : list Node;
  relaysSent : nat;
  trace : list Event
}.

(** What a run can throw. *)
Inductive Exception : Type :=
  | SyntaxError
  | TypeError
  | HttpError (status : Z) (message : string)
  | EntityNotFound (id : string).

(** A run either returns or throws. *)
Inductive Outcome (A : Type) : Type :=
  | Returned (a : A)
  | Thrown (e : Exception).
Arguments Returned {A} a.
Arguments Thrown {A} e.

Definition M (A : Type) : Type := World → Outcome A * World.

Definition ret {A} (a : A) : M A := λ w, (Returned a, w).
Definition throw {A} (e : Exception) : M A := λ w, (Thrown e, w).
Definition bind {A B} (m : M A) (k : A → M B) : M B :=
  λ w, match m w with
       | (Returned a, w') => k a w'
       | (Thrown e, w') => (Thrown e, w')
       end.

Notation "'let*' x ':=' m 'in' k" := (bind m (λ x, k))
  (at level 10, x pattern, m at level 100, k at level 200).
Notation "m ';;' k" := (bind m (λ _, k))
  (at level 100, k at level 200, right associativity).

(** [for (const x of l) { ... }] with the variables the body updates as
    accumulator *)
Fixpoint for_of {A S} (l : list A) (acc : S) (body : S → A → M S) : M S :=
  match l with
  | [] => ret acc
  | x :: t => let* acc' := body acc x in for_of t acc' body
  end.

Definition emit (e : Event) : M unit :=
  λ w, (Returned tt,
        {| redis := redis w; nodesArray := nodesArray w;
           relaysSent := relaysSent w; trace := (trace w ++ [e])%list |}).

Definition redis_get (key : string) : M (option string) :=
  λ w, (Returned (redis w !! key),
        {| redis := redis w; nodesArray := nodesArray w;
           relaysSent := relaysSent w; trace := (trace w ++ [RedisGet key])%list |}).

(** [SET key value args...]: with NX among the arguments a key that exists
    is left as it is. *)
Definition redis_set (key value : string) (args : list RedisArg) : M unit :=
  λ w, (Returned tt,
        {| redis := if bool_decide (RStr "NX" ∈ args) && bool_decide (is_Some (redis w !! key))
                    then redis w else <[key := value]> (redis w);
           nodesArray := nodesArray w;
           relaysSent := relaysSent w;
           trace := (trace w ++ [RedisSet key value args])%list |}).

Definition logger_log (level : string) (text : LogText) (requestID serviceNode : string) : M unit :=
  emit (LoggerLog level text requestID serviceNode).

(** Modelled from the spec: the key of the service log entry of a node on a
    chain, which section 4.2 gives as [service-{chain}-{nodePubKey}]; the
    metrics recorder that builds it is not part of the sources. *)
Definition service_key (blockchain serviceNode : string) : string :=
  "service-" ++ blockchain ++ "-" ++ serviceNode.

(** Modelled from the spec: the metrics recorder (services/metrics-recorder)
    is not part of the sources.  Section 4.2 gives [recordMetric] two effects:
    the update of the service log entry of the node in the cache, a hash under
    [service-{chain}-{nodePubKey}] to which a relay of result 200 adds a
    success and its elapsed time and any other relay a failure, with the
    life of the entry set again to 60 seconds; and the hand-over of the record
    to the durable store.  Errors inside are swallowed: the call returns. *)
Definition recordMetric (m : Metric.t) : M unit :=
  emit (UpdateServiceLog (service_key (Metric.blockchain m) (Metric.serviceNode m))
          (if (Metric.result m =? 200)%Z then Success (Metric.relayStart m) else Failure)) ;;
  emit (RecordMetric m).

(** [nodes.sort(cmp)] sorts the caller's array in place and answers it. *)
Definition sort_nodes (cmp : Node → Node → Z) : M (list Node) :=
  λ w, let sorted := js_sort cmp (nodesArray w) in
       (Returned sorted,
        {| redis := redis w; nodesArray := sorted;
           relaysSent := relaysSent w; trace := trace w |}).

Definition read_nodes : M (list Node) := λ w, (Returned (nodesArray w), w).

(** What [consensusFilter] hands back: the array it was given, or an array it
    built. *)
Inductive NodesRef : Type :=
  | SameArray
  | FreshArray (l : list Node).

Definition deref (w : World) (r : NodesRef) : list Node :=
  match r with
  | SameArray => nodesArray w
  | FreshArray l => l
  end.

(** What the reading of a text with [JSON.parse] and of a member of the
    value comes to: [JSON.parse] throws SyntaxError on a text that is not
    JSON; on the value [null] the access to a member throws TypeError; every
    other value has the member, be it [undefined]. *)
Inductive Reading (A : Type) : Type :=
  | NotJSON
  | NullValue
  | Value (a : A).
Arguments NotJSON {A}.
Arguments NullValue {A}.
Arguments Value {A} a.

(** A value as [JSON.parse] gives it, as far as [v.includes(key)] tells
    values apart: [null]; a string; an array, of each element the string it
    is when it is one; or one of the others, a number, a boolean or an
    object. *)
Inductive Parsed : Type :=
  | PNull
  | PString (s : string)
  | PArray (items : list (option string))
  | POther.

(** The parts of the platform the checker calls and the sources do not hold:
    the relay network (its answer to the n-th relay of the run), the reading
    of a probe payload [parseInt(JSON.parse(payload).result, 16)] and
    [JSON.parse] on a cached text, [None] when it throws SyntaxError. *)
Class Platform : Type := {
  network : nat → RelayRequest → RelayResult;
  parse_block_height : string → Reading jsnum;
  JSON_parse : string → option Parsed
}.

(** [JSON.parse] on a text that holds an array of strings. *)
Definition JSON_parse_strings `{Platform} (s : string) : option (list string) :=
  match JSON_parse s with
  | Some (PArray items) => mapM id items
  | _ => None
  end.

(** ** SyncChecker (src/services/sync-checker.ts) *)

Section SyncChecker.
Context `{Platform}.

Definition sendRelay (req : RelayRequest) : M RelayResult :=
  λ w, (Returned (network (relaysSent w) req),
        {| redis := redis w; nodesArray := nodesArray w;
           relaysSent := S (relaysSent w); trace := (trace w ++ [SendRelay req])%list |}).

Definition updateConfigurationConsensus (pocketConfiguration : Configuration) : Configuration :=
  {| maxDispatchers := maxDispatchers pocketConfiguration;
     maxSessions := maxSessions pocketConfiguration;
     consensusNodeCount := 5;
     requestTimeOut := 2000;
     acceptDisputedResponses := false;
     sessionBlockFrequency := sessionBlockFrequency pocketConfiguration;
     blockTime := blockTime pocketConfiguration;
     maxSessionRefreshRetries := maxSessionRefreshRetries pocketConfiguration;
     validateRelayResponses := validateRelayResponses pocketConfiguration;
     rejectSelfSignedCertificates := rejectSelfSignedCertificates pocketConfiguration |}.

Definition updateConfigurationTimeout (pocketConfiguration : Configuration) : Configuration :=
  {| maxDispatchers := maxDispatchers pocketConfiguration;
     maxSessions := maxSessions pocketConfiguration;
     consensusNodeCount := consensusNodeCount pocketConfiguration;
     requestTimeOut := 5000;
     acceptDisputedResponses := acceptDisputedResponses pocketConfiguration;
     sessionBlockFrequency := sessionBlockFrequency pocketConfiguration;
     blockTime := blockTime pocketConfiguration;
     maxSessionRefreshRetries := maxSessionRefreshRetries pocketConfiguration;
     validateRelayResponses := validateRelayResponses pocketConfiguration;
     rejectSelfSignedCertificates := rejectSelfSignedCertificates pocketConfiguration |}.

(** The arguments of [consensusFilter] other than [nodes], which is the
    array of the world, and [pocket], which is the platform. *)
Variables (syncCheck : string) (syncAllowance : option Z)
          (blockchain applicationID applicationPublicKey pocketAAT : string)
          (pocketConfiguration : Configuration).

(** [syncAllowance: number = 1] *)
Definition allowance : Z := default 1 syncAllowance.

Definition syncedNodesKey (sorted : list Node) : string :=
  blockchain ++ "-" ++ SHA256.sha256_hex (canonical_json sorted).

(** Lines 29-33: the nodes whose public key the cached list includes. *)
Definition cached_nodes (syncedNodesList : list string) (nodes : list Node) : list Node :=
  fold_left (λ syncedNodes node,
               if bool_decide (publicKey node ∈ syncedNodesList)
               then (syncedNodes ++ [node])%list else syncedNodes)
            nodes [].

(** The same loop when the cached value is a string: [includes] is then the
    test for a substring. *)
Definition cached_nodes_text (syncedNodesList : string) (nodes : list Node) : list Node :=
  fold_left (λ syncedNodes node,
               if includes syncedNodesList (publicKey node)
               then (syncedNodes ++ [node])%list else syncedNodes)
            nodes [].

(** Lines 28-35, by the kind of the cached value.  An array includes a
    public key when one of its elements is that string.  The values that have
    no [includes] make the first turn of the loop throw TypeError; without
    nodes the loop has no turn. *)
Definition cached_filter (syncedNodesList : Parsed) (nodes : list Node) : M NodesRef :=
  match syncedNodesList with
  | PArray items => ret (FreshArray (cached_nodes (omap id items) nodes))
  | PString text => ret (FreshArray (cached_nodes_text text nodes))
  | PNull | POther =>
      match nodes with
      | [] => ret (FreshArray [])
      | _ :: _ => throw TypeError
      end
  end.

(** Lines 53-101: one probe. *)
Definition probe (nodeSyncLogs : list NodeSyncLog.t) (node : Node) : M (list NodeSyncLog.t) :=
  let* relayResponse :=
    sendRelay {| relay_data := syncCheck; relay_blockchain := blockchain;
                 relay_aat := pocketAAT;
                 relay_configuration := updateConfigurationTimeout pocketConfiguration;
                 relay_node := Some node; relay_consensus := false;
                 relay_requestID := "synccheck" |} in
  match relayResponse with
  | RelayResponse payload =>
      match parse_block_height payload with
      | NotJSON => throw SyntaxError
      | NullValue => throw TypeError
      | Value h =>
          let nodeSyncLog :=
            {| NodeSyncLog.node := node; NodeSyncLog.blockchain := blockchain;
               NodeSyncLog.blockHeight := h |} in
          logger_log "info" (SyncCheckResult nodeSyncLog) "" (publicKey node) ;;
          ret (nodeSyncLogs ++ [nodeSyncLog])%list
      end
  | RelayError message =>
      logger_log "error" (SyncCheckRelayError message) "synccheck" (publicKey node) ;;
      recordMetric {| Metric.requestID := "synccheck";
                      Metric.applicationID := applicationID;
                      Metric.appPubKey := applicationPublicKey;
                      Metric.blockchain := blockchain;
                      Metric.serviceNode := publicKey node;
                      Metric.relayStart := HrTime;
                      Metric.result := 500;
                      Metric.bytes := Z.of_nat (String.length message);
                      Metric.delivered := false;
                      Metric.fallback := false;
                      Metric.method := "synccheck";
                      Metric.error := message |} ;;
      ret nodeSyncLogs
  | OtherResult => ret nodeSyncLogs
  end.

(** [(a,b) => (a.blockHeight > b.blockHeight) ? 1 : ((b.blockHeight > a.blockHeight) ? -1 : 0)] *)
Definition by_blockHeight (a b : NodeSyncLog.t) : Z :=
  ternary_cmp (λ x y, JsNum.gt (NodeSyncLog.blockHeight x) (NodeSyncLog.blockHeight y)) a b.

(** Line 133: [(nodeSyncLog.blockHeight + syncAllowance) >= currentBlockHeight] *)
Definition in_sync (currentBlockHeight : jsnum) (nodeSyncLog : NodeSyncLog.t) : bool :=
  JsNum.ge (JsNum.add (NodeSyncLog.blockHeight nodeSyncLog) allowance) currentBlockHeight.

(** Lines 132-159: one turn of the admission loop, on the pair of
    [syncedNodes] and [syncedNodesList]. *)
Definition admission (currentBlockHeight : jsnum)
    (acc : list Node * list string) (nodeSyncLog : NodeSyncLog.t) : M (list Node * list string) :=
  let '(syncedNodes, syncedNodesList) := acc in
  let n := NodeSyncLog.node nodeSyncLog in
  if in_sync currentBlockHeight nodeSyncLog then
    logger_log "info" (InSync (publicKey n) (NodeSyncLog.blockHeight nodeSyncLog)) "" (publicKey n) ;;
    ret ((syncedNodes ++ [n])%list, (syncedNodesList ++ [publicKey n])%list)
  else
    logger_log "info" (Behind (publicKey n) (NodeSyncLog.blockHeight nodeSyncLog)) "" (publicKey n) ;;
    recordMetric {| Metric.requestID := "synccheck";
                    Metric.applicationID := applicationID;
                    Metric.appPubKey := applicationPublicKey;
                    Metric.blockchain := blockchain;
                    Metric.serviceNode := publicKey n;
                    Metric.relayStart := Literal 0 0;
                    Metric.result := 500;
                    Metric.bytes := Z.of_nat (String.length "OUT OF SYNC");
                    Metric.delivered := false;
                    Metric.fallback := false;
                    Metric.method := "synccheck";
                    Metric.error := "OUT OF SYNC" |} ;;
    ret (syncedNodes, syncedNodesList).

(** Lines 109-188: what follows the count of the probes, on the sorted
    logs. *)
Definition consensus (key : string) (sorted : list NodeSyncLog.t) : M NodesRef :=
  match sorted with
  | first :: second :: _ =>
      if JsNum.is_zero (NodeSyncLog.blockHeight first)
         || JsNum.fractional (NodeSyncLog.blockHeight first)
      then
        logger_log "error" (TopInvalid (NodeSyncLog.blockHeight first)) "" "" ;;
        ret SameArray
      else if JsNum.gt (NodeSyncLog.blockHeight first)
                       (JsNum.add (NodeSyncLog.blockHeight second) 1)
      then
        logger_log "error" NoAgreement "synccheck" "" ;;
        ret SameArray
      else
        let currentBlockHeight := NodeSyncLog.blockHeight first in
        let* (syncedNodes, syncedNodesList) :=
          for_of sorted ([], []) (admission currentBlockHeight) in
        logger_log "info" (Complete (length syncedNodes)) "synccheck" "" ;;
        redis_set key (JSON.stringify_strings syncedNodesList) [RStr "EX"; RInt 300] ;;
        (if (length syncedNodes <? 5)%nat then
           let* consensusResponse :=
             sendRelay {| relay_data := syncCheck; relay_blockchain := blockchain;
                          relay_aat := pocketAAT;
                          relay_configuration := updateConfigurationConsensus pocketConfiguration;
                          relay_node := None; relay_consensus := true;
                          relay_requestID := "syncheck" |} in
           logger_log "info" (Challenge consensusResponse) "synccheck" ""
         else ret tt) ;;
        ret (FreshArray syncedNodes)
  | _ => throw TypeError
  end.

(** Lines 103-110: the count of the probes, then the sort by height. *)
Definition after_probes (key : string) (nodeSyncLogs : list NodeSyncLog.t) : M NodesRef :=
  if (length nodeSyncLogs <=? 2)%nat then
    logger_log "error" FewerThanThree "synccheck" "" ;;
    ret SameArray
  else consensus key (js_sort by_blockHeight nodeSyncLogs).

Definition consensusFilter : M NodesRef :=
  let* nodes := sort_nodes by_publicKey in
  let syncedNodesKey := syncedNodesKey nodes in
  let* syncedNodesCached := redis_get syncedNodesKey in
  if truthy syncedNodesCached then
    match JSON_parse (default EmptyString syncedNodesCached) with
    | None => throw SyntaxError
    | Some syncedNodesList =>
        let* nodes := read_nodes in
        cached_filter syncedNodesList nodes
    end
  else
    let* syncLock := redis_get ("lock-" ++ syncedNodesKey) in
    if truthy syncLock then ret SameArray
    else
      redis_set ("lock-" ++ syncedNodesKey) "true" [RStr "EX"; RInt 60] ;;
      let* nodes := read_nodes in
      let* nodeSyncLogs := for_of nodes [] probe in
      after_probes syncedNodesKey nodeSyncLogs.

End SyncChecker.

(** ** The worlds along a run of consensusFilter *)

Section worlds.
Variable blockchain : string.

(** The array as [consensusFilter] leaves it, the cache key of the session
    and the key of its lock. *)
Definition sorted_nodes (w : World) : list Node := js_sort by_publicKey (nodesArray w).
Definition session_key (w : World) : string := syncedNodesKey blockchain (sorted_nodes w).
Definition lock_key (w : World) : string := "lock-" ++ session_key w.

(** The world after the first read of the cache. *)
Definition looked_up (w : World) : World :=
  {| redis := redis w; nodesArray := sorted_nodes w; relaysSent := relaysSent w;
     trace := (trace w ++ [RedisGet (session_key w)])%list |}.

(** The world after the read of the lock. *)
Definition lock_read (w : World) : World :=
  {| redis := redis w; nodesArray := sorted_nodes w; relaysSent := relaysSent w;
     trace := (trace w ++ [RedisGet (session_key w); RedisGet (lock_key w)])%list |}.

(** The world in which the probes start: the lock is written. *)
Definition probing (w : World) : World :=
  {| redis := <[lock_key w := "true"]> (redis w);
     nodesArray := sorted_nodes w;
     relaysSent := relaysSent w;
     trace := (trace w ++ [RedisGet (session_key w); RedisGet (lock_key w);
                           RedisSet (lock_key w) "true" [RStr "EX"; RInt 60]])%list |}.

End worlds.

(** The line the admission loop logs for a log that is in sync. *)
Definition in_sync_event (l : NodeSyncLog.t) : Event :=
  LoggerLog "info" (InSync (publicKey (NodeSyncLog.node l)) (NodeSyncLog.blockHeight l))
            EmptyString (publicKey (NodeSyncLog.node l)).

(** The events of the other branch of the loop: the BEHIND line, and a
    metric whose error is OUT OF SYNC. *)
Definition out_of_sync_event (e : Event) : Prop :=
  match e with
  | LoggerLog _ (Behind _ _) _ _ => True
  | RecordMetric m => Metric.error m = "OUT OF SYNC"
  | _ => False
  end.

(** The order of two logs whose heights are integers. *)
Definition le_height (a b : NodeSyncLog.t) : Prop :=
  ∃ x y, NodeSyncLog.blockHeight a = Num x ∧ NodeSyncLog.blockHeight b = Num y ∧ (x ≤ y)%Z.

(** ** Relations used to state the properties *)

(** The order of two nodes by public key. *)
Definition le_publicKey (a b : Node) : Prop := String.le (publicKey a) (publicKey b).

(** [w ⊑ w']: the world [w'] has the array of [w] and its trace continues
    the trace of [w]. *)
Definition continues (w w' : World) : Prop :=
  nodesArray w' = nodesArray w ∧ ∃ rest, trace w' = (trace w ++ rest)%list.

Infix "⊑" := continues (at level 70).

(** A computation that neither touches the array nor rewrites the trace. *)
Definition Frame {A} (m : M A) : Prop := ∀ w, w ⊑ (m w).2.

(** ** V1Controller (controllers/v1.controller.js) *)

(** The application records: the model class [Applications], the repository
    behind [applicationsRepository.findById] (with the filter of the request),
    the text written to the cache for [JSON.stringify(application)], and
    [new Applications(JSON.parse(text))], which is [None] when the text does
    not parse.  The repository is the LoopBack repository the controller is
    wired to: its [findById] resolves to the record it holds under the
    identifier and rejects with ENTITY_NOT_FOUND when it holds none, for which
    [findById] is [None]. *)
Class AppStore : Type := {
  Applications : Type;
  application_id : Applications → option string;
  findById : string → option Applications;
  JSON_stringify_app : option Applications → string;
  new_Applications : string → option Applications
}.

(** [Math.floor(Math.random() * n)] for a draw [random] *)
Definition random_index (random : Q) (n : nat) : nat :=
  Z.to_nat (Qfloor (random * inject_Z (Z.of_nat n))).

Section V1Controller.
Context `{Platform} `{AppStore}.

Definition repository_findById (id : string) : M (option Applications) :=
  emit (FindById id) ;;
  match findById id with
  | Some application => ret (Some application)
  | None => throw (EntityNotFound id)
  end.

(** Lines 94-102 *)
Definition fetchApp (id : string) : M (option Applications) :=
  let* cachedApplication := redis_get id in
  if negb (truthy cachedApplication) then
    let* application := repository_findById id in
    redis_set id (JSON_stringify_app application) [RStr "EX"; RInt 60] ;;
    ret application
  else
    match new_Applications (default EmptyString cachedApplication) with
    | None => throw SyntaxError
    | Some application => ret (Some application)
    end.

(** Lines 76-81: one turn of the loop that builds [verifiedIDs];
    [application?.id] is tested for truthiness. *)
Definition verify (verifiedIDs : list string) (applicationID : string) : M (list string) :=
  let* application := fetchApp applicationID in
  if truthy (application ≫= application_id)
  then ret (verifiedIDs ++ [default EmptyString (application ≫= application_id)])%list
  else ret verifiedIDs.

(** Lines 72-86: the verified list, from the cache or built and cached.  The
    text under the key is one the gateway wrote, the JSON of an array of
    strings, or a text that does not parse; a text that is JSON for another
    value is outside the model, which takes it as one that does not parse. *)
Definition verified (id : string) (applicationIDs : list string) : M (list string) :=
  let* cachedLoadBalancerApplicationIDs := redis_get ("applicationIDs-" ++ id) in
  if negb (truthy cachedLoadBalancerApplicationIDs) then
    let* verifiedIDs := for_of applicationIDs [] verify in
    redis_set ("applicationIDs-" ++ id) (JSON.stringify_strings verifiedIDs)
              [RStr "EX"; RInt 60] ;;
    ret verifiedIDs
  else
    match JSON_parse_strings (default EmptyString cachedLoadBalancerApplicationIDs) with
    | None => throw SyntaxError
    | Some l => ret l
    end.

(** Lines 71-92; [random] is what [Math.random()] answers, a number from 0
    up to but not including 1, for which the index is within the list. *)
Definition fetchRandomLoadBalancerApplication
    (id : string) (applicationIDs : list string) (random : Q) : M (option Applications) :=
  let* verifiedIDs := verified id applicationIDs in
  if (length verifiedIDs <? 1)%nat then
    throw (HttpError 403 "Load Balancer configuration invalid")
  else
    match verifiedIDs !! random_index random (length verifiedIDs) with
    | Some chosen => fetchApp chosen
    | None => throw TypeError
    end.

End V1Controller.

(** ** Invariants of runs *)

(** A computation every run of which relates the world it starts in to the
    world it ends in. *)
Definition Keeps (R : World → World → Prop) {A} (m : M A) : Prop := ∀ w, R w (m w).2.

(** The trace grows by events that satisfy [P]. *)
Definition appends (P : Event → Prop) (w w' : World) : Prop :=
  ∃ rest, trace w' = (trace w ++ rest)%list ∧ Forall P rest.

(** The trace grows by a piece that satisfies [Q]. *)
Definition extends (Q : list Event → Prop) (w w' : World) : Prop :=
  ∃ rest, trace w' = (trace w ++ rest)%list ∧ Q rest.

(** The nodes the relays of a piece of trace are addressed to, in order. *)
Definition probed (events : list Event) : list Node :=
  omap (λ e, match e with SendRelay req => relay_node req | _ => None end) events.

(** The relays of a piece of trace that are addressed to no node. *)
Definition challenges (events : list Event) : list RelayRequest :=
  omap (λ e, match e with
             | SendRelay req => match relay_node req with Some _ => None | None => Some req end
             | _ => None
             end) events.

(** ** V1Controller.checkDebug *)

(** [c.toLowerCase()] on the letters A to Z; the other bytes stand, which is
    what JavaScript does on ASCII text.  (Outside ASCII a few characters, the
    Kelvin sign among them, lower-case to an ASCII letter; user agents with
    such characters are outside the model.) *)
Definition lower (c : ascii) : ascii :=
  let n := N_of_ascii c in
  if (65 <=? n)%N && (n <=? 90)%N then ascii_of_N (n + 32) else c.

Fixpoint toLowerCase (s : string) : string :=
  match s with
  | EmptyString => EmptyString
  | String c t => String (lower c) (toLowerCase t)
  end.

(** Lines 104-110; [userAgent] is the injected header, absent or a string. *)
Definition checkDebug (userAgent : option string) : bool :=
  if truthy userAgent && includes (toLowerCase (default EmptyString userAgent)) "pocket-debug"
  then true else false.

(** ** The relays and the metrics of the sync checker *)

Section requests.
Variables (syncCheck blockchain applicationID applicationPublicKey pocketAAT : string)
          (pocketConfiguration : Configuration).

(** The relay of lines 57-68 for a node. *)
Definition probe_request (n : Node) : RelayRequest :=
  {| relay_data := syncCheck; relay_blockchain := blockchain; relay_aat := pocketAAT;
     relay_configuration := updateConfigurationTimeout pocketConfiguration;
     relay_node := Some n; relay_consensus := false; relay_requestID := "synccheck" |}.

(** The relay of lines 173-184. *)
Definition challenge_request : RelayRequest :=
  {| relay_data := syncCheck; relay_blockchain := blockchain; relay_aat := pocketAAT;
     relay_configuration := updateConfigurationConsensus pocketConfiguration;
     relay_node := None; relay_consensus := true; relay_requestID := "syncheck" |}.

(** A metric of the checker: a failure, never delivered, of method synccheck,
    for one of [nodes]. *)
Definition checker_metric (nodes : list Node) (e : Event) : Prop :=
  ∀ m, e = RecordMetric m →
    Metric.result m = 500 ∧ Metric.delivered m = false ∧ Metric.fallback m = false
    ∧ Metric.method m = "synccheck" ∧ Metric.requestID m = "synccheck"
    ∧ Metric.applicationID m = applicationID ∧ Metric.appPubKey m = applicationPublicKey
    ∧ Metric.blockchain m = blockchain
    ∧ ∃ n, n ∈ nodes ∧ Metric.serviceNode m = publicKey n.

End requests.

(** The writes of a piece of trace: key, value and arguments of each SET. *)
Definition writes (events : list Event) : list (string * string * list RedisArg) :=
  omap (λ e, match e with RedisSet k v args => Some (k, v, args) | _ => None end) events.

(** The updates of service log entries in a piece of trace: the key of the
    entry and what is added to it. *)
Definition service_updates (events : list Event) : list (string * ServiceResult) :=
  omap (λ e, match e with UpdateServiceLog k r => Some (k, r) | _ => None end) events.

(** The metrics handed to the durable store in a piece of trace. *)
Definition metrics (events : list Event) : list Metric.t :=
  omap (λ e, match e with RecordMetric m => Some m | _ => None end) events.

(** The identifiers a piece of trace asks the repository for. *)
Definition lookups (events : list Event) : list string :=
  omap (λ e, match e with FindById i => Some i | _ => None end) events.

(** ** A platform and a repository to run the model on

    The theorems below hold for every platform and every repository.  To
    evaluate the model on given inputs one of each is fixed here: a network
    that answers a probe by the public key of the probed node, block heights
    read from an [eth_blockNumber] answer, a reader of arrays of plain
    strings, and a repository held as a list of records. *)

Module Demo.

Definition hex_value (c : ascii) : option Z :=
  let n := Z.of_N (N_of_ascii c) in
  if (48 <=? n)%Z && (n <=? 57)%Z then Some (n - 48)
  else if (97 <=? n)%Z && (n <=? 102)%Z then Some (n - 87)
  else if (65 <=? n)%Z && (n <=? 70)%Z then Some (n - 55)
  else None.

(** The digits at the head of [s], in base sixteen. *)
Fixpoint hex_digits (s : string) (acc : option Z) : option Z :=
  match s with
  | EmptyString => acc
  | String c t =>
      match hex_value c with
      | Some d => hex_digits t (Some (16 * default 0 acc + d))
      | None => acc
      end
  end.

(** [parseInt(s, 16)] on a text without leading blanks or sign *)
Definition parseInt16 (s : string) : jsnum :=
  let digits :=
    match s with
    | String "0" (String "x" t) | String "0" (String "X" t) => t
    | _ => s
    end in
  match hex_digits digits None with
  | Some z => Num z
  | None => NaN
  end.

(** The text after the first occurrence of [pat] in [s]. *)
Fixpoint after (pat s : string) : option string :=
  if String.prefix pat s then Some (String.substring (String.length pat) (String.length s) s)
  else match s with
       | EmptyString => None
       | String _ t => after pat t
       end.

(** The height in the answer to [eth_blockNumber]: the member [result] of
    the object, read in base sixteen; an object without the member gives NaN,
    the text null is the value [null], and every other answer is taken as a
    text that does not parse. *)
Definition block_height (payload : string) : Reading jsnum :=
  match payload with
  | String "{" _ =>
      match after (JSON.quote "result" ++ ":" ++ String JSON.dquote EmptyString) payload with
      | Some t => Value (parseInt16 t)
      | None => Value NaN
      end
  | "null" => NullValue
  | _ => NotJSON
  end.

Definition answer (height : string) : RelayResult :=
  RelayResponse ("{" ++ JSON.quote "jsonrpc" ++ ":" ++ JSON.quote "2.0" ++ ","
                     ++ JSON.quote "id" ++ ":1,"
                     ++ JSON.quote "result" ++ ":" ++ JSON.quote height ++ "}").

(** A quoted string without escapes other than those of the quote and the
    backslash: its content and what follows it. *)
Fixpoint read_string (s acc : string) : option (string * string) :=
  match s with
  | EmptyString => None
  | String c t =>
      if Ascii.eqb c JSON.dquote then Some (acc, t)
      else if Ascii.eqb c JSON.backslash then
        match t with
        | String d t' =>
            if Ascii.eqb d JSON.dquote || Ascii.eqb d JSON.backslash
            then read_string t' (acc ++ String d EmptyString)
            else None
        | EmptyString => None
        end
      else read_string t (acc ++ String c EmptyString)
  end.

Fixpoint read_items (fuel : nat) (s : string) (acc : list string) : option (list string) :=
  match fuel, s with
  | S fuel', String c t =>
      if Ascii.eqb c JSON.dquote then
        match read_string t EmptyString with
        | Some (item, String "," rest) => read_items fuel' rest (acc ++ [item])%list
        | Some (item, "]") => Some (acc ++ [item])%list
        | _ => None
        end
      else None
  | _, _ => None
  end.

Definition parse_strings (s : string) : option (list string) :=
  match s with
  | "[]" => Some []
  | String "[" t => read_items (String.length t) t []
  | _ => None
  end.

(** A reader of the cached texts of the examples: null, true and false, a
    quoted string, an array of quoted strings; every other text is taken as
    one that does not parse. *)
Definition parse (s : string) : option Parsed :=
  match s with
  | "null" => Some PNull
  | "true" | "false" => Some POther
  | String c t =>
      if Ascii.eqb c JSON.dquote then
        match read_string t EmptyString with
        | Some (text, EmptyString) => Some (PString text)
        | _ => None
        end
      else (λ l, PArray (Some <$> l)) <$> parse_strings s
  | EmptyString => None
  end.

Definition platform (answers : list (string * RelayResult)) : Platform :=
  {| network := λ _ req,
       match relay_node req with
       | Some n => from_option snd OtherResult
                     (List.find (λ p, String.eqb (fst p) (publicKey n)) answers)
       | None => OtherResult
       end;
     parse_block_height := block_height;
     JSON_parse := parse |}.

Record application : Type := {
  id : string;
  name : string
}.

Definition application_json (a : application) : string :=
  JSON.stringify (λ _, true)
    (JSON.JObject [("id", JSON.JString (id a)); ("name", JSON.JString (name a))]).

(** A repository holding [records]; a record read back from the cache is
    one whose text the cache holds. *)
Definition store (records : list application) : AppStore :=
  {| Applications := application;
     application_id := λ a, Some (id a);
     findById := λ i, List.find (λ a, String.eqb (id a) i) records;
     JSON_stringify_app := λ a, from_option application_json EmptyString a;
     new_Applications := λ s, List.find (λ a, String.eqb (application_json a) s) records |}.

Definition node (pk : string) : Node :=
  {| publicKey := pk; serviceURL := "https://" ++ pk ++ ".example"; chains := ["0021"] |}.

Definition configuration : Configuration :=
  {| maxDispatchers := 50; maxSessions := 100000; consensusNodeCount := 0;
     requestTimeOut := 120000; acceptDisputedResponses := false;
     sessionBlockFrequency := 4; blockTime := 1038000;
     maxSessionRefreshRetries := 10200; validateRelayResponses := false;
     rejectSelfSignedCertificates := false |}.

Definition world (cache : gmap string string) (nodes : list Node) : World :=
  {| redis := cache; nodesArray := nodes; relaysSent := 0; trace := [] |}.

(** A session of four nodes, and the answers of the four to a probe. *)
Definition nodes4 : list Node := [node "aa"; node "bb"; node "cc"; node "dd"].

Definition heights (aa bb cc dd : string) : list (string * RelayResult) :=
  [("aa", answer aa); ("bb", answer bb); ("cc", answer cc); ("dd", answer dd)].

(** Two nodes that share a public key. *)
Definition twin1 : Node :=
  {| publicKey := "aa"; serviceURL := "https://one.example"; chains := ["0021"] |}.
Definition twin2 : Node :=
  {| publicKey := "aa"; serviceURL := "https://two.example"; chains := ["0021"] |}.

Definition is_redis_set (e : Event) : bool :=
  match e with
  | RedisSet _ _ _ => true
  | _ => false
  end.

(** A run of the checker on chain 0021 with the probe of the chain. *)
Definition run (answers : list (string * RelayResult)) (syncAllowance : option Z)
    (cache : gmap string string) (nodes : list Node) : Outcome NodesRef * World :=
  @consensusFilter (platform answers) "eth_blockNumber" syncAllowance "0021"
    "app" "apppk" "aat" configuration (world cache nodes).

(** The cache key of the session of [nodes4] on chain 0021. *)
Definition key4 : string := session_key "0021" (world ∅ nodes4).

(** Two applications, and a load balancer that names them and a third one
    the repository does not hold. *)
Definition app1 : application := {| id := "a1"; name := "first" |}.
Definition app2 : application := {| id := "a2"; name := "second" |}.

Definition fetch (records : list application) (i : string)
    (cache : gmap string string) : Outcome (option application) * World :=
  @fetchApp (store records) i (world cache []).

Definition resolve (records : list application) (applicationIDs : list string) (random : Q)
    (cache : gmap string string) : Outcome (option application) * World :=
  @fetchRandomLoadBalancerApplication (platform []) (store records)
    "lb" applicationIDs random (world cache []).

End Demo.

(** * Properties *)

(** ** The hash and the canonical text on known inputs *)

Example sha256_abc :
  SHA256.sha256_hex "abc"
  = "ba7816bf8f01cfea414140de5dae2223b00361a396177a9cb410ff61f20015ad".
Proof. vm_compute. reflexivity. Qed.

Example sha256_empty :
  SHA256.sha256_hex EmptyString
  = "e3b0c44298fc1c149afbf4c8996fb92427ae41e4649b934ca495991b7852b855".
Proof. vm_compute. reflexivity. Qed.

Example sha256_two_blocks :
  SHA256.sha256_hex "abcdbcdecdefdefgefghfghighijhijkijkljklmklmnlmnomnopnopq"
  = "248d6a61d20638b8e5c026930c3e6039a33ce45964ff2167f6ecedd419db06c1".
Proof. vm_compute. reflexivity. Qed.

Example canonical_json_ex :
  canonical_json [ {| publicKey := "ab"; serviceURL := "https://n1"; chains := ["0021"; "0001"] |} ]
  = "[{" ++ JSON.quote "serviceURL" ++ ":" ++ JSON.quote "https://n1" ++ ","
         ++ JSON.quote "chains" ++ ":[" ++ JSON.quote "0021" ++ "," ++ JSON.quote "0001" ++ "]}]".
Proof. reflexivity. Qed.

(** ** Strings *)

Lemma str_length_app (s1 s2 : string) :
  String.length (s1 ++ s2) = (String.length s1 + String.length s2)%nat.
Proof.
  induction s1 as [|c s IH]; [done|].
  change (S (String.length (s ++ s2)) = S (String.length s + String.length s2)).
  by rewrite IH.
Qed.

Lemma str_prefixed_ne (p s : string) : p ≠ EmptyString → p ++ s ≠ s.
Proof.
  intros Hp Heq. apply (f_equal String.length) in Heq.
  rewrite str_length_app in Heq. destruct p; [done|]. simpl in Heq. lia.
Qed.

(** ** Sorting *)

Section js_sort_facts.
Context {A : Type} (cmp : A → A → Z).

Lemma js_insert_Permutation x l : js_insert cmp x l ≡ₚ x :: l.
Proof.
  induction l as [|y t IH]; simpl; [done|].
  destruct (cmp x y <=? 0)%Z; [done|].
  rewrite IH. apply Permutation_swap.
Qed.

Lemma js_sort_Permutation l : js_sort cmp l ≡ₚ l.
Proof.
  induction l as [|x t IH]; simpl; [done|].
  by rewrite js_insert_Permutation, IH.
Qed.

Lemma js_sort_length l : length (js_sort cmp l) = length l.
Proof. apply Permutation_length, js_sort_Permutation. Qed.

(** Where the comparator decides a transitive relation [R] on the elements
    that satisfy [P], sorting such elements orders them by [R]. *)
Context (R : relation A) (P : A → Prop) `{!Transitive R}.
Hypothesis cmp_le : ∀ x y, P x → P y → (cmp x y ≤ 0)%Z → R x y.
Hypothesis cmp_gt : ∀ x y, P x → P y → ¬ (cmp x y ≤ 0)%Z → R y x.

Lemma js_insert_sorted x l :
  P x → Forall P l → StronglySorted R l → StronglySorted R (js_insert cmp x l).
Proof.
  intros Hx HP Hl. induction Hl as [|y t Ht IH Hy]; simpl.
  { repeat constructor. }
  apply Forall_cons in HP as [Py Pt].
  destruct (Z.leb_spec (cmp x y) 0) as [Hle|Hgt].
  - constructor; [by constructor|].
    constructor; [by apply cmp_le|].
    eapply Forall_impl; [exact Hy|]. intros z Hz. etrans; [|exact Hz].
    by apply cmp_le.
  - constructor; [by apply IH|].
    rewrite js_insert_Permutation. constructor; [|done].
    apply cmp_gt; [done..|lia].
Qed.

Lemma js_sort_sorted l : Forall P l → StronglySorted R (js_sort cmp l).
Proof.
  induction 1 as [|x t Hx Ht IH]; simpl; [constructor|].
  apply js_insert_sorted; [done| |done].
  by rewrite js_sort_Permutation.
Qed.

End js_sort_facts.

(** The order of [a.publicKey > b.publicKey] is the order of strings. *)
Lemma str_gt_false a b : str_gt a b = false ↔ String.le a b.
Proof.
  unfold str_gt, String.le, String.leb.
  destruct (String.compare a b); simpl; split; (done || intros []).
Qed.

Lemma by_publicKey_le a b :
  (by_publicKey a b ≤ 0)%Z ↔ String.le (publicKey a) (publicKey b).
Proof.
  unfold by_publicKey, ternary_cmp. rewrite <- str_gt_false.
  destruct (str_gt (publicKey a) (publicKey b)) eqn:E.
  - split; [lia|done].
  - destruct (str_gt (publicKey b) (publicKey a)); split; (done || lia).
Qed.

Global Instance le_publicKey_trans : Transitive le_publicKey.
Proof. intros a b c. unfold le_publicKey. apply transitivity. Qed.

Lemma sorted_by_publicKey l : StronglySorted le_publicKey (js_sort by_publicKey l).
Proof.
  apply (js_sort_sorted by_publicKey le_publicKey (λ _, True)).
  - intros x y _ _. apply by_publicKey_le.
  - intros x y _ _ Hn. unfold le_publicKey.
    destruct (total String.le (publicKey x) (publicKey y)) as [Hle|Hle]; [|done].
    by apply by_publicKey_le in Hle.
  - by apply Forall_true.
Qed.

(** Two arrangements of the same nodes sort to the same array when no two of
    the nodes share a public key. *)
Lemma js_sort_by_publicKey_unique l1 l2 :
  l1 ≡ₚ l2 → NoDup (publicKey <$> l1) →
  js_sort by_publicKey l1 = js_sort by_publicKey l2.
Proof.
  intros Hp Hnd.
  apply (StronglySorted_unique_strong le_publicKey);
    [|apply sorted_by_publicKey..|by rewrite !js_sort_Permutation].
  intros x1 x2 H1 H2 H12 H21.
  rewrite js_sort_Permutation in H1. rewrite js_sort_Permutation, <- Hp in H2.
  assert (publicKey x1 = publicKey x2) as Hk by (by apply (anti_symm String.le)).
  apply list_elem_of_lookup in H1 as [i Hi], H2 as [j Hj].
  assert (i = j) as ->; [|congruence].
  apply (NoDup_lookup _ i j (publicKey x1) Hnd);
    rewrite list_lookup_fmap; [rewrite Hi|rewrite Hj]; simpl; congruence.
Qed.

(** ** The session fingerprint *)

Lemma hex_digit_is_hex x : is_hex_digit (SHA256.hex_digit x) = true.
Proof.
  unfold SHA256.hex_digit.
  assert (0 ≤ Z.land x 15 < 16)%Z as Hr.
  { change 15%Z with (Z.ones 4). rewrite Z.land_ones by lia. apply Z.mod_pos_bound. lia. }
  assert (∃ n, (n < 16)%nat ∧ Z.land x 15 = Z.of_nat n) as (n & Hn & ->).
  { exists (Z.to_nat (Z.land x 15)). lia. }
  do 16 (destruct n as [|n]; [reflexivity|]). lia.
Qed.

Lemma hex_word_digits x rest :
  Forall (λ c, is_hex_digit c = true) (list_ascii_of_string rest) →
  Forall (λ c, is_hex_digit c = true) (list_ascii_of_string (SHA256.hex_word x rest)).
Proof.
  intros Hrest. unfold SHA256.hex_word. simpl.
  repeat (constructor; [apply hex_digit_is_hex|]). exact Hrest.
Qed.

(** The digest is sixty-four hexadecimal digits. *)
Lemma sha256_hex_length s : String.length (SHA256.sha256_hex s) = 64%nat.
Proof. reflexivity. Qed.

Lemma sha256_hex_digits s :
  Forall (λ c, is_hex_digit c = true) (list_ascii_of_string (SHA256.sha256_hex s)).
Proof.
  unfold SHA256.sha256_hex, SHA256.hex.
  repeat apply hex_word_digits. constructor.
Qed.

Lemma concat_length sep l :
  String.length (String.concat sep l)
  = (sum_list_with (λ s, String.length s + String.length sep) l - String.length sep)%nat.
Proof.
  induction l as [|x [|y t] IH].
  - done.
  - simpl. lia.
  - change (String.concat sep (x :: y :: t)) with (x ++ sep ++ String.concat sep (y :: t)).
    rewrite !str_length_app, IH. simpl. lia.
Qed.

Lemma canonical_json_text sorted :
  canonical_json sorted = "[" ++ String.concat "," (node_text <$> sorted) ++ "]".
Proof.
  unfold canonical_json. simpl. do 2 f_equal.
  rewrite <- list_fmap_compose. reflexivity.
Qed.

Lemma node_text_length n : (1 ≤ String.length (node_text n))%nat.
Proof.
  unfold node_text, node_json. simpl.
  match goal with |- context [String.concat ?a ?b] => generalize (String.concat a b) end.
  intros s. change ("{" ++ s ++ "}") with (String "{" (s ++ "}")). simpl. lia.
Qed.

Lemma canonical_json_length sorted :
  String.length (canonical_json sorted)
  = (2 + (sum_list_with (λ n, S (String.length (node_text n))) sorted - 1))%nat.
Proof.
  rewrite canonical_json_text, !str_length_app, concat_length.
  change (String.length "[") with 1%nat. change (String.length "]") with 1%nat.
  change (String.length ",") with 1%nat.
  enough (sum_list_with (λ s, String.length s + 1)%nat (node_text <$> sorted)
          = sum_list_with (λ n, S (String.length (node_text n))) sorted) as -> by lia.
  induction sorted as [|n t IH]; [done|].
  rewrite fmap_cons. cbn [sum_list_with]. rewrite IH. lia.
Qed.

(** One node more makes the hashed text longer, wherever the sort puts it. *)
Lemma canonical_json_grows l n :
  (String.length (canonical_json (js_sort by_publicKey l))
   < String.length (canonical_json (js_sort by_publicKey (l ++ [n]))))%nat.
Proof.
  rewrite !canonical_json_length, !js_sort_Permutation, sum_list_with_app. simpl.
  pose proof (node_text_length n). lia.
Qed.

(** ** The random index *)




(** ** Runs: what a computation leaves untouched *)

Global Instance continues_preorder : PreOrder continues.
Proof.
  split.
  - intros w. split; [done|]. exists []. by rewrite app_nil_r.
  - intros w1 w2 w3 [N12 [r12 T12]] [N23 [r23 T23]]. split; [congruence|].
    exists (r12 ++ r23)%list. by rewrite T23, T12, app_assoc.
Qed.

Create HintDb frame discriminated.

Lemma Frame_ret {A} (a : A) : Frame (ret a).
Proof. intros w. reflexivity. Qed.

Lemma Frame_throw {A} e : Frame (@throw A e).
Proof. intros w. reflexivity. Qed.

Lemma Frame_bind {A B} (m : M A) (k : A → M B) :
  Frame m → (∀ a, Frame (k a)) → Frame (bind m k).
Proof.
  intros Hm Hk w. unfold bind. specialize (Hm w).
  destruct (m w) as [[a|e] w1]; simpl in *; [|done].
  etrans; [exact Hm|apply Hk].
Qed.

Lemma Frame_for_of {A S} (body : S → A → M S) l acc :
  (∀ s x, Frame (body s x)) → Frame (for_of l acc body).
Proof.
  intros Hb. revert acc. induction l as [|x t IH]; intros acc; simpl.
  - apply Frame_ret.
  - apply Frame_bind; [apply Hb|]. intros s. apply IH.
Qed.

Lemma Frame_emit e : Frame (emit e).
Proof. intros w. split; [done|]. by exists [e]. Qed.

Lemma Frame_redis_get k : Frame (redis_get k).
Proof. intros w. split; [done|]. by exists [RedisGet k]. Qed.

Lemma Frame_redis_set k v args : Frame (redis_set k v args).
Proof. intros w. split; [done|]. by exists [RedisSet k v args]. Qed.

Lemma Frame_read_nodes : Frame read_nodes.
Proof. intros w. reflexivity. Qed.

Lemma Frame_sendRelay `{Platform} req : Frame (sendRelay req).
Proof. intros w. split; [done|]. by exists [SendRelay req]. Qed.

Lemma Frame_logger_log l t r s : Frame (logger_log l t r s).
Proof. apply Frame_emit. Qed.

Lemma Frame_recordMetric m : Frame (recordMetric m).
Proof. apply Frame_bind; [apply Frame_emit|]. intros _. apply Frame_emit. Qed.

#[global] Hint Resolve Frame_ret Frame_throw Frame_emit Frame_redis_get Frame_redis_set
  Frame_read_nodes Frame_sendRelay Frame_logger_log Frame_recordMetric : frame.

(** Frames of compound computations: split at every bind, loop and case. *)
Ltac frame :=
  repeat first
    [ progress intros
    | apply Frame_bind
    | apply Frame_for_of
    | solve [eauto with frame]
    | match goal with
      | |- Frame (match ?x with _ => _ end) => destruct x
      | |- Frame (if ?b then _ else _) => destruct b
      | |- Frame (let '(_, _) := ?p in _) => destruct p
      end ].

Section SyncChecker_frames.
Context `{Platform}.
Variables (syncCheck : string) (syncAllowance : option Z)
          (blockchain applicationID applicationPublicKey pocketAAT : string)
          (pocketConfiguration : Configuration).

Lemma Frame_probe logs n :
  Frame (probe syncCheck blockchain applicationID applicationPublicKey pocketAAT
               pocketConfiguration logs n).
Proof. unfold probe. frame. Qed.

Lemma Frame_admission cur acc l :
  Frame (admission syncAllowance blockchain applicationID applicationPublicKey cur acc l).
Proof. unfold admission. frame. Qed.

Lemma Frame_consensus key sorted :
  Frame (consensus syncCheck syncAllowance blockchain applicationID applicationPublicKey
                   pocketAAT pocketConfiguration key sorted).
Proof. unfold consensus. frame; apply Frame_admission. Qed.

Lemma Frame_after_probes key logs :
  Frame (after_probes syncCheck syncAllowance blockchain applicationID applicationPublicKey
                      pocketAAT pocketConfiguration key logs).
Proof. unfold after_probes. frame. apply Frame_consensus. Qed.

End SyncChecker_frames.

(** ** The paths of consensusFilter *)

Section SyncChecker_properties.
Context `{Platform}.
Variables (syncCheck : string) (syncAllowance : option Z)
          (blockchain applicationID applicationPublicKey pocketAAT : string)
          (pocketConfiguration : Configuration).

Local Abbreviation session_key := (session_key blockchain).
Local Abbreviation lock_key := (lock_key blockchain).
Local Abbreviation looked_up := (looked_up blockchain).
Local Abbreviation lock_read := (lock_read blockchain).
Local Abbreviation probing := (probing blockchain).
Local Abbreviation run_filter :=
  (consensusFilter syncCheck syncAllowance blockchain applicationID applicationPublicKey
                   pocketAAT pocketConfiguration).
Local Abbreviation run_probe :=
  (probe syncCheck blockchain applicationID applicationPublicKey pocketAAT pocketConfiguration).
Local Abbreviation run_after_probes :=
  (after_probes syncCheck syncAllowance blockchain applicationID applicationPublicKey
                pocketAAT pocketConfiguration).
Local Abbreviation run_consensus :=
  (consensus syncCheck syncAllowance blockchain applicationID applicationPublicKey
             pocketAAT pocketConfiguration).
Local Abbreviation run_admission :=
  (admission syncAllowance blockchain applicationID applicationPublicKey).

(** The loop of lines 29-33 neither reads nor writes anything but its two
    lists: it returns nodes of the array in their order, or throws TypeError
    on a value that has no [includes]. *)
Lemma cached_filter_spec (v : Parsed) (nodes : list Node) (w : World) :
  (cached_filter v nodes w).2 = w
  ∧ ((∃ l, (cached_filter v nodes w).1 = Returned (FreshArray l) ∧ sublist l nodes)
     ∨ ((cached_filter v nodes w).1 = Thrown TypeError
        ∧ nodes ≠ [] ∧ (v = PNull ∨ v = POther))).
Proof.
  assert (∀ (test : Node → bool) acc,
            fold_left (λ syncedNodes node,
                         if test node then (syncedNodes ++ [node])%list else syncedNodes)
                      nodes acc
            = (acc ++ filter (λ n, test n = true) nodes)%list) as Hloop.
  { induction nodes as [|n t IH]; intros test acc; simpl.
    { by rewrite app_nil_r. }
    rewrite IH, filter_cons. destruct (test n) eqn:Hn.
    - rewrite decide_True by done. by rewrite <- app_assoc.
    - by rewrite decide_False by done. }
  split; [by destruct v as [| | |], nodes|].
  destruct v as [|text|items|]; simpl.
  - destruct nodes; [left; by exists []|right]. by repeat split; [|left].
  - left. eexists. split; [done|]. unfold cached_nodes_text.
    rewrite (Hloop (λ n, includes text (publicKey n))). apply sublist_filter.
  - left. eexists. split; [done|]. unfold cached_nodes.
    rewrite (Hloop (λ n, bool_decide (publicKey n ∈ omap id items))). apply sublist_filter.
  - destruct nodes; [left; by exists []|right]. by repeat split; [|right].
Qed.

(** A text that reads as an array of strings parses to that array. *)
Lemma JSON_parse_strings_Some (s : string) (l : list string) :
  JSON_parse_strings s = Some l → JSON_parse s = Some (PArray (Some <$> l)).
Proof.
  unfold JSON_parse_strings. destruct (JSON_parse s) as [[| |items|]|]; try done.
  intros Hitems. f_equal. f_equal. apply mapM_Some in Hitems.
  induction Hitems as [|x y items l' Hxy _ IH]; [done|]. simpl in *. by rewrite Hxy, IH.
Qed.

Lemma omap_id_Some {A} (l : list A) : omap id (Some <$> l) = l.
Proof. induction l as [|x t IH]; [done|]. csimpl. by rewrite IH. Qed.

Lemma consensusFilter_paths w :
  run_filter w =
    if truthy (redis w !! session_key w) then
      match JSON_parse (default EmptyString (redis w !! session_key w)) with
      | None => (Thrown SyntaxError, looked_up w)
      | Some v => cached_filter v (sorted_nodes w) (looked_up w)
      end
    else if truthy (redis w !! lock_key w) then (Returned SameArray, lock_read w)
    else bind (for_of (sorted_nodes w) [] run_probe) (run_after_probes (session_key w))
              (probing w).
Proof.
  unfold consensusFilter, bind, sort_nodes, redis_get, redis_set, read_nodes, ret, throw. simpl.
  fold (sorted_nodes w). fold (session_key w). fold (lock_key w).
  destruct (truthy (redis w !! session_key w)).
  { by destruct (JSON_parse _). }
  simpl. destruct (truthy (redis w !! lock_key w)); simpl;
    unfold lock_read, probing; rewrite <- ?app_assoc; reflexivity.
Qed.

(** On a hit the run ends in the world of the first read. *)
Lemma hit_path_world (s : string) (nodes : list Node) (w : World) :
  (match JSON_parse s with
   | None => (Thrown SyntaxError, w)
   | Some v => cached_filter v nodes w
   end).2 = w.
Proof. destruct (JSON_parse s) as [v|]; [apply cached_filter_spec|done]. Qed.

(** One probe leaves the cache as it is and adds at most the log of the
    probed node. *)
Lemma probe_step logs n w :
  redis (run_probe logs n w).2 = redis w
  ∧ ∀ logs', (run_probe logs n w).1 = Returned logs' →
      logs' = logs ∨ ∃ l, logs' = (logs ++ [l])%list ∧ NodeSyncLog.node l = n.
Proof.
  unfold probe, bind, sendRelay, logger_log, recordMetric, emit, ret, throw. simpl.
  match goal with |- context [network ?a ?b] => destruct (network a b) as [payload|message|] end;
    simpl.
  - destruct (parse_block_height payload) as [| |h]; simpl; (split; [done|]); [done..|].
    intros logs' [= <-]. right. by eexists.
  - split; [done|]. intros logs' [= <-]. by left.
  - split; [done|]. intros logs' [= <-]. by left.
Qed.

Lemma for_of_cons {A S} (body : S → A → M S) x t acc w :
  for_of (x :: t) acc body w
  = match body acc x w with
    | (Returned a, w') => for_of t a body w'
    | (Thrown e, w') => (Thrown e, w')
    end.
Proof. reflexivity. Qed.

(** The probes leave the cache as it is, and every log they add is the log
    of a node of the array, in the order of the array. *)
Lemma probes_spec nodes acc w :
  redis (for_of nodes acc run_probe w).2 = redis w
  ∧ ∀ logs, (for_of nodes acc run_probe w).1 = Returned logs →
      ∃ extra, logs = (acc ++ extra)%list
               ∧ sublist (NodeSyncLog.node <$> extra) nodes.
Proof.
  revert acc w. induction nodes as [|n t IH]; intros acc w.
  { split; [done|]. intros logs [= <-]. exists []. by rewrite app_nil_r. }
  rewrite for_of_cons. destruct (probe_step acc n w) as [Hr Hl].
  destruct (run_probe acc n w) as [[a|e] w1]; simpl in *; [|done].
  destruct (IH a w1) as [IHr IHl]. split; [by rewrite IHr|].
  intros logs Hlogs. destruct (IHl logs Hlogs) as (extra & -> & Hsub).
  destruct (Hl a eq_refl) as [->|(l & -> & <-)].
  - exists extra. split; [done|]. by apply sublist_cons.
  - exists (l :: extra). split; [by rewrite <- app_assoc|].
    simpl. by apply sublist_skip.
Qed.

Lemma admission_step cur acc l w :
  ∃ w', run_admission cur acc l w
        = (Returned (if in_sync syncAllowance cur l
                     then ((acc.1 ++ [NodeSyncLog.node l])%list,
                           (acc.2 ++ [publicKey (NodeSyncLog.node l)])%list)
                     else acc), w')
        ∧ redis w' = redis w ∧ relaysSent w' = relaysSent w
        ∧ (in_sync syncAllowance cur l = true →
           w' = {| redis := redis w; nodesArray := nodesArray w; relaysSent := relaysSent w;
                   trace := (trace w ++ [in_sync_event l])%list |}).
Proof.
  unfold admission. destruct acc as [sn sl].
  destruct (in_sync syncAllowance cur l);
    unfold bind, logger_log, recordMetric, emit, ret; simpl;
    (eexists; split; [reflexivity|]; split; [done|]; split; [done|]; by intros).
Qed.

(** The admission loop keeps the logs that pass the test of line 133, in
    their order, and leaves the cache as it is. *)
Lemma admission_spec cur logs acc w :
  ∃ w', for_of logs acc (run_admission cur) w
        = (Returned ((acc.1 ++ (NodeSyncLog.node <$> filter (λ l, in_sync syncAllowance cur l = true) logs))%list,
                     (acc.2 ++ (publicKey ∘ NodeSyncLog.node <$>
                                  filter (λ l, in_sync syncAllowance cur l = true) logs))%list), w')
        ∧ redis w' = redis w ∧ relaysSent w' = relaysSent w.
Proof.
  revert acc w. induction logs as [|l t IH]; intros acc w.
  { exists w. simpl. rewrite !app_nil_r. by destruct acc. }
  rewrite for_of_cons. destruct (admission_step cur acc l w) as (w1 & -> & Hr & Hs & _).
  match goal with |- context [for_of t ?a _ w1] => destruct (IH a w1) as (w' & -> & Hr' & Hs') end.
  exists w'. rewrite filter_cons.
  destruct (decide (in_sync syncAllowance cur l = true)) as [Hin|Hout].
  - rewrite Hin. simpl. rewrite <- !app_assoc. split; [done|]. split; congruence.
  - apply not_true_is_false in Hout. rewrite Hout. split; [done|]. split; congruence.
Qed.

(** When every log passes the test, the loop only writes the IN-SYNC lines. *)
Lemma admission_all_in_sync cur logs acc w :
  Forall (λ l, in_sync syncAllowance cur l = true) logs →
  for_of logs acc (run_admission cur) w
  = (Returned ((acc.1 ++ (NodeSyncLog.node <$> logs))%list,
               (acc.2 ++ (publicKey ∘ NodeSyncLog.node <$> logs))%list),
     {| redis := redis w; nodesArray := nodesArray w; relaysSent := relaysSent w;
        trace := (trace w ++ (in_sync_event <$> logs))%list |}).
Proof.
  intros Hall. revert acc w. induction Hall as [|l t Hl Ht IH]; intros acc w.
  { simpl. rewrite !app_nil_r. by destruct w, acc. }
  rewrite for_of_cons. destruct (admission_step cur acc l w) as (w1 & -> & _ & _ & Hw1).
  rewrite Hl, (Hw1 Hl), IH. simpl. by rewrite <- !app_assoc.
Qed.

(** ** The sort by height *)

Global Instance le_height_trans : Transitive le_height.
Proof.
  intros a b c (x & y & Ha & Hb & Hxy) (y' & z & Hb' & Hc & Hyz).
  exists x, z. rewrite Hb in Hb'. injection Hb' as <-. repeat split; [done..|lia].
Qed.

(** On integer heights the array comes out of line 110 in ascending order:
    the log at index 0 is a lowest one. *)
Lemma sorted_by_blockHeight logs :
  Forall (λ l, JsNum.is_int (NodeSyncLog.blockHeight l)) logs →
  StronglySorted le_height (js_sort by_blockHeight logs).
Proof.
  apply js_sort_sorted; [apply _|..].
  - intros a b [x Hx] [y Hy]. unfold by_blockHeight, ternary_cmp. rewrite Hx, Hy. simpl.
    intros Hle. exists x, y. repeat split; [done..|].
    destruct (Z.gtb_spec x y); [lia|done].
  - intros a b [x Hx] [y Hy]. unfold by_blockHeight, ternary_cmp. rewrite Hx, Hy. simpl.
    intros Hgt. exists y, x. repeat split; [done..|].
    destruct (Z.gtb_spec x y); [lia|]. destruct (Z.gtb_spec y x); lia.
Qed.

(** C3. In every run in which at least three probes succeed, every probed
    height is an integer, the height at index 0 after the sort is not zero and
    the sync allowance is not negative, the branch of the admission loop that
    logs BEHIND and records the OUT OF SYNC metric is never taken, and the
    nodes returned are the probed nodes, all of them: the reference height is
    the one at index 0 of an ascending sort, so every probed height plus the
    allowance reaches it. *)
Theorem out_of_sync_branch_unreachable (w w1 : World) (logs : list NodeSyncLog.t) :
  truthy (redis w !! session_key w) = false →
  truthy (redis w !! lock_key w) = false →
  for_of (sorted_nodes w) [] run_probe (probing w) = (Returned logs, w1) →
  (3 ≤ length logs)%nat →
  Forall (λ l, JsNum.is_int (NodeSyncLog.blockHeight l)) logs →
  NodeSyncLog.blockHeight <$> head (js_sort by_blockHeight logs) ≠ Some (Num 0) →
  (0 ≤ allowance syncAllowance)%Z →
  ∃ w' events,
    run_filter w
    = (Returned (FreshArray (NodeSyncLog.node <$> js_sort by_blockHeight logs)), w')
    ∧ NodeSyncLog.node <$> js_sort by_blockHeight logs ≡ₚ NodeSyncLog.node <$> logs
    ∧ trace w' = (trace w1 ++ events)%list
    ∧ Forall (λ e, ¬ out_of_sync_event e) events.
Proof.
  intros Hmiss Hlock Hprobe Hlen Hint Hnz Hallow.
  rewrite consensusFilter_paths, Hmiss, Hlock. unfold bind. rewrite Hprobe.
  unfold after_probes. destruct (Nat.leb_spec (length logs) 2) as [?|_]; [lia|].
  pose proof (sorted_by_blockHeight logs Hint) as Hsorted.
  pose proof (js_sort_length by_blockHeight logs) as Hlen'.
  pose proof (fmap_Permutation NodeSyncLog.node _ _ (js_sort_Permutation by_blockHeight logs))
    as Hperm.
  assert (Forall (λ l, JsNum.is_int (NodeSyncLog.blockHeight l))
                 (js_sort by_blockHeight logs)) as Hint'
    by (by rewrite js_sort_Permutation).
  destruct (js_sort by_blockHeight logs) as [|first [|second rest]] eqn:Hs;
    simpl in Hlen'; [lia..|].
  assert (Forall (le_height first) (first :: second :: rest)) as Hlow.
  { apply StronglySorted_inv in Hsorted as [_ Hlow]. constructor; [|done].
    apply Forall_cons in Hint' as [[x Hx] _]. exists x, x. repeat split; [done..|lia]. }
  assert (Forall (λ l, in_sync syncAllowance (NodeSyncLog.blockHeight first) l = true)
                 (first :: second :: rest)) as Hin.
  { eapply Forall_impl; [exact Hlow|]. intros l (x & y & Hx & Hy & Hxy).
    unfold in_sync. rewrite Hx, Hy. simpl. apply Z.geb_le. lia. }
  apply Forall_cons in Hlow as [_ Hlow]. apply Forall_cons in Hlow as [(x & y & Hx & Hy & Hxy) _].
  unfold consensus.
  assert (JsNum.is_zero (NodeSyncLog.blockHeight first)
          || JsNum.fractional (NodeSyncLog.blockHeight first) = false) as ->.
  { simpl in Hnz. rewrite Hx in *. destruct x; simpl; congruence. }
  assert (JsNum.gt (NodeSyncLog.blockHeight first)
                   (JsNum.add (NodeSyncLog.blockHeight second) 1) = false) as ->.
  { rewrite Hx, Hy. simpl. destruct (Z.gtb_spec x (y + 1)); [lia|done]. }
  unfold bind. rewrite (admission_all_in_sync _ _ _ _ Hin).
  unfold logger_log, emit, redis_set, sendRelay, ret. simpl.
  assert (Forall (λ e, ¬ out_of_sync_event e) (in_sync_event <$> first :: second :: rest)) as Hev.
  { apply Forall_fmap, Forall_true. intros l. simpl. tauto. }
  destruct (_ <? 5)%nat; simpl; eexists _, _;
    (split; [reflexivity|]); (split; [exact Hperm|]);
    rewrite <- !app_assoc; (split; [reflexivity|]);
    (apply Forall_app; split; [exact Hev|]); repeat constructor; simpl; tauto.
Qed.

(** ** The array and the trace over a whole run *)

Lemma probing_continues w :
  probing w ⊑ (bind (for_of (sorted_nodes w) [] run_probe)
                    (run_after_probes (session_key w)) (probing w)).2.
Proof.
  apply Frame_bind; [apply Frame_for_of; intros; apply Frame_probe|].
  intros logs. apply Frame_after_probes.
Qed.

Lemma run_array w : nodesArray (run_filter w).2 = sorted_nodes w.
Proof.
  rewrite consensusFilter_paths.
  destruct (truthy (redis w !! session_key w)).
  { by rewrite hit_path_world. }
  destruct (truthy (redis w !! lock_key w)); [done|].
  by destruct (probing_continues w) as [-> _].
Qed.

(** C10. consensusFilter sorts the array it is given, in place: when the
    call ends, on every path, the array of the caller holds its former
    elements ordered by public key, ascending; the elements themselves are
    the same values. *)
Theorem consensusFilter_sorts_input (w : World) :
  nodesArray (run_filter w).2 = js_sort by_publicKey (nodesArray w)
  ∧ nodesArray (run_filter w).2 ≡ₚ nodesArray w
  ∧ StronglySorted le_publicKey (nodesArray (run_filter w).2).
Proof.
  rewrite run_array. unfold sorted_nodes.
  split; [done|]. split; [apply js_sort_Permutation|apply sorted_by_publicKey].
Qed.

(** C5. In every run that reaches the probes: when at most two of them
    succeed, the run logs the error and returns the array it was given, with
    all its nodes; when three or more succeed, the run goes on with the sort of
    the logs and the checks of lines 112-127. *)
Theorem probe_count_fail_open (w w1 : World) (logs : list NodeSyncLog.t) :
  truthy (redis w !! session_key w) = false →
  truthy (redis w !! lock_key w) = false →
  for_of (sorted_nodes w) [] run_probe (probing w) = (Returned logs, w1) →
  ((length logs ≤ 2)%nat →
     run_filter w
     = (Returned SameArray,
        {| redis := redis w1; nodesArray := nodesArray w1; relaysSent := relaysSent w1;
           trace := (trace w1 ++ [LoggerLog "error" FewerThanThree "synccheck" EmptyString])%list |})
     ∧ nodesArray w1 ≡ₚ nodesArray w
     ∧ redis w1 = <[lock_key w := "true"]> (redis w))
  ∧ ((3 ≤ length logs)%nat →
     run_filter w = run_consensus (session_key w) (js_sort by_blockHeight logs) w1).
Proof.
  intros Hmiss Hlock Hprobe.
  rewrite consensusFilter_paths, Hmiss, Hlock. unfold bind. rewrite Hprobe.
  unfold after_probes. split; intros Hlen.
  - destruct (Nat.leb_spec (length logs) 2) as [_|?]; [|lia].
    split; [reflexivity|].
    pose proof (Frame_for_of run_probe (sorted_nodes w) []
                  (λ s x, Frame_probe _ _ _ _ _ _ s x) (probing w)) as [Harr _].
    destruct (probes_spec (sorted_nodes w) [] (probing w)) as [Hredis _].
    rewrite Hprobe in Harr, Hredis. simpl in Harr, Hredis.
    split; [|done]. rewrite Harr. apply js_sort_Permutation.
  - by destruct (Nat.leb_spec (length logs) 2) as [?|_]; [lia|].
Qed.

(** What the part after the probes does to the cache, and what it returns:
    the array of the caller, or logged nodes in the order of the sorted logs. *)
Lemma consensus_spec key sorted w :
  (redis (run_consensus key sorted w).2 = redis w
   ∨ ∃ v, redis (run_consensus key sorted w).2 = <[key := v]> (redis w))
  ∧ ∀ ref, (run_consensus key sorted w).1 = Returned ref →
      ref = SameArray
      ∨ ref = FreshArray (NodeSyncLog.node <$>
            filter (λ l, in_sync syncAllowance
                           (from_option NodeSyncLog.blockHeight NaN (head sorted)) l = true)
                   sorted).
Proof.
  unfold consensus. destruct sorted as [|first [|second rest]]; [by split; [left|]..|].
  destruct (_ || _).
  { split; [by left|]. intros ref [= <-]. by left. }
  destruct (JsNum.gt _ _).
  { split; [by left|]. intros ref [= <-]. by left. }
  unfold bind.
  destruct (admission_spec (NodeSyncLog.blockHeight first) (first :: second :: rest) ([], []) w)
    as (w' & -> & Hr & _).
  unfold logger_log, emit, redis_set, sendRelay, ret. cbn [fst snd app].
  destruct (_ <? 5)%nat; cbn [fst snd redis bool_decide andb];
    (split; [right; eexists; by rewrite <- Hr|]); intros ref [= <-]; by right.
Qed.

Lemma after_probes_spec key logs w :
  (redis (run_after_probes key logs w).2 = redis w
   ∨ ∃ v, redis (run_after_probes key logs w).2 = <[key := v]> (redis w))
  ∧ ∀ ref, (run_after_probes key logs w).1 = Returned ref →
      ref = SameArray ∨ ∃ l, ref = FreshArray l ∧ l ⊆+ (NodeSyncLog.node <$> logs).
Proof.
  unfold after_probes. destruct (_ <=? 2)%nat.
  { split; [by left|]. intros ref [= <-]. by left. }
  destruct (consensus_spec key (js_sort by_blockHeight logs) w) as [Hr Href].
  split; [done|]. intros ref Hret. destruct (Href ref Hret) as [->| ->]; [by left|].
  right. eexists. split; [done|].
  rewrite <- (js_sort_Permutation by_blockHeight logs) at 2.
  apply sublist_submseteq, fmap_sublist, sublist_filter.
Qed.

(** The loop of lines 29-33 is a filter. *)
Lemma cached_nodes_filter l nodes :
  cached_nodes l nodes = filter (λ n, publicKey n ∈ l) nodes.
Proof.
  unfold cached_nodes.
  enough (∀ acc, fold_left (λ syncedNodes node,
                              if bool_decide (publicKey node ∈ l)
                              then (syncedNodes ++ [node])%list else syncedNodes) nodes acc
                 = (acc ++ filter (λ n, publicKey n ∈ l) nodes)%list) as Hgen by apply Hgen.
  induction nodes as [|n t IH]; intros acc; simpl.
  { by rewrite app_nil_r. }
  rewrite IH, filter_cons. case_bool_decide as Hin.
  - rewrite decide_True by done. by rewrite <- app_assoc.
  - by rewrite decide_False by done.
Qed.

(** The first command of every run is the read of the session key. *)
Lemma run_first_lookup w :
  ∃ rest, trace (run_filter w).2 = (trace w ++ RedisGet (session_key w) :: rest)%list.
Proof.
  rewrite consensusFilter_paths.
  destruct (truthy (redis w !! session_key w)).
  { exists []. by rewrite hit_path_world. }
  destruct (truthy (redis w !! lock_key w)).
  { by eexists. }
  destruct (probing_continues w) as [_ [rest ->]]. simpl.
  eexists. rewrite <- app_assoc. reflexivity.
Qed.

(** The lock stays as written until the run ends. *)
Lemma run_keeps_lock w :
  truthy (redis w !! session_key w) = false →
  truthy (redis w !! lock_key w) = false →
  redis (run_filter w).2 !! lock_key w = Some "true".
Proof.
  intros Hmiss Hlock. rewrite consensusFilter_paths, Hmiss, Hlock. unfold bind.
  destruct (probes_spec (sorted_nodes w) [] (probing w)) as [Hr _].
  destruct (for_of _ _ _ (probing w)) as [[logs|e] w1]; simpl in *.
  - destruct (after_probes_spec (session_key w) logs w1) as [[->|[v ->]] _].
    + rewrite Hr. apply lookup_insert_eq.
    + rewrite lookup_insert_ne, Hr; [apply lookup_insert_eq|].
      intros Heq. by apply (str_prefixed_ne "lock-" (session_key w)).
  - rewrite Hr. apply lookup_insert_eq.
Qed.

(** C6. Whatever consensusFilter returns holds only nodes of the array it was
    given, each at most as often as the array holds it; and on a hit of the
    cache the result is the nodes of the array, in its sorted order, whose
    public key the cached list includes. *)
Theorem consensusFilter_subset (w w' : World) (ref : NodesRef) :
  run_filter w = (Returned ref, w') →
  deref w' ref ⊆+ nodesArray w
  ∧ ∀ s cached,
      redis w !! session_key w = Some s → s ≠ EmptyString →
      JSON_parse_strings s = Some cached →
      ref = FreshArray (filter (λ n, publicKey n ∈ cached) (sorted_nodes w))
      ∧ w' = looked_up w.
Proof.
  intros Hrun. pose proof (run_array w) as Harr. rewrite Hrun in Harr. simpl in Harr.
  assert (sorted_nodes w ⊆+ nodesArray w) as Hsorted.
  { apply Permutation_submseteq, js_sort_Permutation. }
  rewrite consensusFilter_paths in Hrun. split.
  - destruct (truthy (redis w !! session_key w)).
    { destruct (JSON_parse _) as [v|]; [|done].
      destruct (cached_filter_spec v (sorted_nodes w) (looked_up w))
        as [_ [(l & Hl & Hsub)|[Hthrown _]]]; rewrite Hrun in *; simpl in *; [|done].
      injection Hl as ->. simpl. etrans; [|exact Hsorted]. by apply sublist_submseteq. }
    destruct (truthy (redis w !! lock_key w)).
    { injection Hrun as <- <-. simpl. exact Hsorted. }
    unfold bind in Hrun.
    destruct (probes_spec (sorted_nodes w) [] (probing w)) as [_ Hlogs].
    destruct (for_of _ _ _ (probing w)) as [[logs|e] w1]; [|done].
    destruct (Hlogs logs eq_refl) as (extra & Heq & Hsub). simpl in Heq. subst logs.
    destruct (after_probes_spec (session_key w) extra w1) as [_ Href].
    rewrite Hrun in Href. destruct (Href ref eq_refl) as [->|(l & -> & Hl)]; simpl.
    + by rewrite Harr.
    + etrans; [exact Hl|]. etrans; [|exact Hsorted]. by apply sublist_submseteq.
  - intros s cached Hs Hne Hparse. rewrite Hs in Hrun. simpl in Hrun.
    assert (String.eqb s EmptyString = false) as Hs' by (by apply String.eqb_neq).
    rewrite Hs', (JSON_parse_strings_Some _ _ Hparse) in Hrun. simpl in Hrun.
    injection Hrun as <- <-. by rewrite omap_id_Some, cached_nodes_filter.
Qed.

(** C7, as the code has it. On a miss of the session key: when the read of
    the lock key answers a value that is not empty, the run returns the array
    it was given and does nothing else, no relay and no write; otherwise the
    next command of the run is a plain SET of the lock key to the text true
    with EX 60 (the read and the write are two commands, and the write carries
    no NX), the probes come after it, and the lock is held when the run
    ends. *)
Theorem probe_lock (w : World) :
  truthy (redis w !! session_key w) = false →
  (truthy (redis w !! lock_key w) = true →
     run_filter w = (Returned SameArray, lock_read w))
  ∧ (truthy (redis w !! lock_key w) = false →
     (∃ rest, trace (run_filter w).2
              = (trace w ++ [RedisGet (session_key w); RedisGet (lock_key w);
                             RedisSet (lock_key w) "true" [RStr "EX"; RInt 60]] ++ rest)%list)
     ∧ redis (run_filter w).2 !! lock_key w = Some "true").
Proof.
  intros Hmiss. split; intros Hlock.
  - by rewrite consensusFilter_paths, Hmiss, Hlock.
  - split; [|by apply run_keeps_lock].
    rewrite consensusFilter_paths, Hmiss, Hlock.
    destruct (probing_continues w) as [_ [rest ->]]. exists rest.
    simpl. by rewrite <- app_assoc.
Qed.

(** X18. The key a run reads first is the chain joined by a dash with the
    fingerprint of the array, and the fingerprint is a text of sixty-four
    hexadecimal digits, whatever the array holds. *)
Theorem session_key_shape (w : World) :
  (∃ rest, trace (run_filter w).2
           = (trace w ++ RedisGet (blockchain ++ "-" ++ fingerprint (nodesArray w)) :: rest)%list)
  ∧ String.length (fingerprint (nodesArray w)) = 64%nat
  ∧ Forall (λ c, is_hex_digit c = true) (list_ascii_of_string (fingerprint (nodesArray w))).
Proof.
  split; [apply run_first_lookup|].
  split; [apply sha256_hex_length|apply sha256_hex_digits].
Qed.

End SyncChecker_properties.

(** ** V1Controller *)

Section V1Controller_properties.
Context `{Platform} `{AppStore}.

(** C8, as the code has it. With a value for the identifier in the cache (a
    text that is not empty), fetchApp reads the cache and returns the
    application the text holds, or throws when the text holds none: no call of
    the repository, no write.  With no value, it calls findById once; when the
    repository holds the application it then writes it to the cache under the
    identifier with EX 60 and returns it; when the repository holds none, it
    throws what findById rejected with and writes nothing. *)
Theorem fetchApp_cache_hit_equivalence (id : string) (w : World) :
  (∀ s, redis w !! id = Some s → s ≠ EmptyString →
     fetchApp id w
     = (match new_Applications s with
        | Some application => Returned (Some application)
        | None => Thrown SyntaxError
        end,
        {| redis := redis w; nodesArray := nodesArray w; relaysSent := relaysSent w;
           trace := (trace w ++ [RedisGet id])%list |}))
  ∧ (truthy (redis w !! id) = false →
     fetchApp id w
     = match findById id with
       | Some application =>
           (Returned (Some application),
            {| redis := <[id := JSON_stringify_app (Some application)]> (redis w);
               nodesArray := nodesArray w; relaysSent := relaysSent w;
               trace := (trace w ++ [RedisGet id; FindById id;
                                     RedisSet id (JSON_stringify_app (Some application))
                                              [RStr "EX"; RInt 60]])%list |})
       | None =>
           (Thrown (EntityNotFound id),
            {| redis := redis w; nodesArray := nodesArray w; relaysSent := relaysSent w;
               trace := (trace w ++ [RedisGet id; FindById id])%list |})
       end).
Proof.
  unfold fetchApp, repository_findById, bind, redis_get, redis_set, emit, ret, throw. split.
  - intros s Hs Hne. simpl. rewrite Hs. simpl.
    assert (String.eqb s EmptyString = false) as -> by (by apply String.eqb_neq).
    simpl. by destruct (new_Applications s).
  - intros Hmiss. simpl. rewrite Hmiss. simpl.
    destruct (findById id); simpl; by rewrite <- !app_assoc.
Qed.

(** The loop over a list in two parts. *)
Lemma for_of_app {A S} (body : S → A → M S) (l1 l2 : list A) (acc : S) (w : World) :
  for_of (l1 ++ l2) acc body w
  = match for_of l1 acc body w with
    | (Returned acc', w') => for_of l2 acc' body w'
    | (Thrown e, w') => (Thrown e, w')
    end.
Proof.
  revert acc w. induction l1 as [|x t IH]; intros acc w; [done|].
  change (for_of ((x :: t) ++ l2) acc body w) with (for_of (x :: t ++ l2) acc body w).
  rewrite !for_of_cons. destruct (body acc x w) as [[a|e] w1]; [apply IH|done].
Qed.

(** X21. An identifier the repository does not know is not dropped from the
    list: when the verified list is not in the cache and the loop comes to an
    identifier that is neither cached nor held by the repository, the
    resolution ends there with the rejection of findById, whatever the
    identifiers before and after it are. *)
Theorem resolution_fails_on_unknown_application
    (id : string) (known : list string) (unknown : string) (others : list string)
    (random : Q) (w w1 : World) (ids : list string) :
  truthy (redis w !! ("applicationIDs-" ++ id)) = false →
  for_of known [] verify
    {| redis := redis w; nodesArray := nodesArray w; relaysSent := relaysSent w;
       trace := (trace w ++ [RedisGet ("applicationIDs-" ++ id)])%list |}
  = (Returned ids, w1) →
  truthy (redis w1 !! unknown) = false →
  findById unknown = None →
  fetchRandomLoadBalancerApplication id (known ++ unknown :: others) random w
  = (Thrown (EntityNotFound unknown),
     {| redis := redis w1; nodesArray := nodesArray w1; relaysSent := relaysSent w1;
        trace := (trace w1 ++ [RedisGet unknown; FindById unknown])%list |}).
Proof.
  intros Hmiss Hknown Hcache Hrepo.
  unfold fetchRandomLoadBalancerApplication, verified, bind, redis_get. simpl.
  rewrite Hmiss. simpl. rewrite for_of_app, Hknown, for_of_cons.
  unfold verify at 1.
  unfold fetchApp, repository_findById, bind, redis_get, emit, throw. simpl.
  rewrite Hcache, Hrepo. simpl. by rewrite <- ?app_assoc.
Qed.


End V1Controller_properties.

(** ** Invariants of runs *)

Global Instance appends_preorder P : PreOrder (appends P).
Proof.
  split.
  - intros w. exists []. by rewrite app_nil_r.
  - intros w1 w2 w3 (r12 & T12 & F12) (r23 & T23 & F23).
    exists (r12 ++ r23)%list. rewrite T23, T12, app_assoc. split; [done|].
    by apply Forall_app.
Qed.

Section Keeps.
Context (R : World → World → Prop) `{!PreOrder R}.

Lemma Keeps_ret {A} (a : A) : Keeps R (ret a).
Proof. intros w. reflexivity. Qed.

Lemma Keeps_throw {A} e : Keeps R (@throw A e).
Proof. intros w. reflexivity. Qed.

Lemma Keeps_bind {A B} (m : M A) (k : A → M B) :
  Keeps R m → (∀ a, Keeps R (k a)) → Keeps R (bind m k).
Proof.
  intros Hm Hk w. unfold bind. specialize (Hm w).
  destruct (m w) as [[a|e] w1]; simpl in *; [|done].
  etrans; [exact Hm|apply Hk].
Qed.

Lemma Keeps_for_of {A S} (body : S → A → M S) l acc :
  (∀ s x, x ∈ l → Keeps R (body s x)) → Keeps R (for_of l acc body).
Proof.
  revert acc. induction l as [|x t IH]; intros acc Hb; simpl.
  - apply Keeps_ret.
  - apply Keeps_bind; [apply Hb; by left|].
    intros s. apply IH. intros s' y Hy. apply Hb. by right.
Qed.

End Keeps.

Section extends.
Context (Q : list Event → Prop).
Hypothesis (Qnil : Q []) (Qapp : ∀ a b, Q a → Q b → Q (a ++ b)%list).

Lemma extends_preorder : PreOrder (extends Q).
Proof.
  split.
  - intros w. exists []. by rewrite app_nil_r.
  - intros w1 w2 w3 (r12 & T12 & Q12) (r23 & T23 & Q23).
    exists (r12 ++ r23)%list. rewrite T23, T12, app_assoc. split; [done|]. by apply Qapp.
Qed.

Lemma extends_emit e : Q [e] → Keeps (extends Q) (emit e).
Proof. intros He w. by exists [e]. Qed.

Lemma extends_redis_set k v args :
  Q [RedisSet k v args] → Keeps (extends Q) (redis_set k v args).
Proof. intros He w. by exists [RedisSet k v args]. Qed.

Lemma extends_recordMetric m :
  Q [UpdateServiceLog (service_key (Metric.blockchain m) (Metric.serviceNode m))
       (if (Metric.result m =? 200)%Z then Success (Metric.relayStart m) else Failure);
     RecordMetric m] →
  Keeps (extends Q) (recordMetric m).
Proof.
  intros He w. eexists. split; [|exact He].
  unfold recordMetric, bind, emit. simpl. by rewrite <- app_assoc.
Qed.

Lemma extends_sendRelay `{Platform} req : Q [SendRelay req] → Keeps (extends Q) (sendRelay req).
Proof. intros He w. by exists [SendRelay req]. Qed.

End extends.

Lemma appends_emit P e : P e → Keeps (appends P) (emit e).
Proof. intros He w. exists [e]. split; [done|]. by constructor. Qed.

Lemma appends_redis_get P k : P (RedisGet k) → Keeps (appends P) (redis_get k).
Proof. intros He w. exists [RedisGet k]. split; [done|]. by constructor. Qed.

Lemma appends_redis_set P k v args :
  P (RedisSet k v args) → Keeps (appends P) (redis_set k v args).
Proof. intros He w. exists [RedisSet k v args]. split; [done|]. by constructor. Qed.

Lemma appends_recordMetric P m :
  P (UpdateServiceLog (service_key (Metric.blockchain m) (Metric.serviceNode m))
       (if (Metric.result m =? 200)%Z then Success (Metric.relayStart m) else Failure)) →
  P (RecordMetric m) →
  Keeps (appends P) (recordMetric m).
Proof.
  intros Hlog Hrecord. apply (Keeps_bind _); [by apply appends_emit|].
  intros _. by apply appends_emit.
Qed.

Lemma appends_sendRelay `{Platform} P req :
  P (SendRelay req) → Keeps (appends P) (sendRelay req).
Proof. intros He w. exists [SendRelay req]. split; [done|]. by constructor. Qed.

(** ** What a run of consensusFilter sends and records *)

Section SyncChecker_effects.
Context `{Platform}.
Variables (syncCheck : string) (syncAllowance : option Z)
          (blockchain applicationID applicationPublicKey pocketAAT : string)
          (pocketConfiguration : Configuration).

Local Abbreviation session_key := (session_key blockchain).
Local Abbreviation lock_key := (lock_key blockchain).
Local Abbreviation probing := (probing blockchain).
Local Abbreviation run_filter :=
  (consensusFilter syncCheck syncAllowance blockchain applicationID applicationPublicKey
                   pocketAAT pocketConfiguration).
Local Abbreviation run_probe :=
  (probe syncCheck blockchain applicationID applicationPublicKey pocketAAT pocketConfiguration).
Local Abbreviation run_after_probes :=
  (after_probes syncCheck syncAllowance blockchain applicationID applicationPublicKey
                pocketAAT pocketConfiguration).
Local Abbreviation run_consensus :=
  (consensus syncCheck syncAllowance blockchain applicationID applicationPublicKey
             pocketAAT pocketConfiguration).
Local Abbreviation run_admission :=
  (admission syncAllowance blockchain applicationID applicationPublicKey).
Local Abbreviation is_checker_metric :=
  (checker_metric blockchain applicationID applicationPublicKey).

(** Whatever holds of every piece of trace the checker can emit in one step
    for the nodes of the array, and of pieces put end to end, holds of the
    trace of a run. *)
Lemma run_extends (Q : list Event → Prop) (w : World) :
  Q [] → (∀ a b, Q a → Q b → Q (a ++ b)%list) →
  (∀ k, Q [RedisGet k]) → (∀ k v args, Q [RedisSet k v args]) →
  (∀ l t r s, Q [LoggerLog l t r s]) →
  (∀ n, n ∈ nodesArray w →
        Q [SendRelay (probe_request syncCheck blockchain pocketAAT pocketConfiguration n)]) →
  Q [SendRelay (challenge_request syncCheck blockchain pocketAAT pocketConfiguration)] →
  (∀ n message, n ∈ nodesArray w →
     Q [UpdateServiceLog (service_key blockchain (publicKey n)) Failure;
        RecordMetric {| Metric.requestID := "synccheck";
                        Metric.applicationID := applicationID;
                        Metric.appPubKey := applicationPublicKey;
                        Metric.blockchain := blockchain;
                        Metric.serviceNode := publicKey n;
                        Metric.relayStart := HrTime;
                        Metric.result := 500;
                        Metric.bytes := Z.of_nat (String.length message);
                        Metric.delivered := false;
                        Metric.fallback := false;
                        Metric.method := "synccheck";
                        Metric.error := message |}]) →
  (∀ n, n ∈ nodesArray w →
     Q [UpdateServiceLog (service_key blockchain (publicKey n)) Failure;
        RecordMetric {| Metric.requestID := "synccheck";
                        Metric.applicationID := applicationID;
                        Metric.appPubKey := applicationPublicKey;
                        Metric.blockchain := blockchain;
                        Metric.serviceNode := publicKey n;
                        Metric.relayStart := Literal 0 0;
                        Metric.result := 500;
                        Metric.bytes := Z.of_nat (String.length "OUT OF SYNC");
                        Metric.delivered := false;
                        Metric.fallback := false;
                        Metric.method := "synccheck";
                        Metric.error := "OUT OF SYNC" |}]) →
  extends Q w (run_filter w).2.
Proof.
  intros Qnil Qapp Hget Hset Hlog Hprobe Hchallenge Hfail Hbehind.
  pose proof (extends_preorder Q Qnil Qapp) as Hpre.
  assert (∀ n, n ∈ sorted_nodes w → n ∈ nodesArray w) as Hin.
  { intros n. unfold sorted_nodes. by rewrite js_sort_Permutation. }
  rewrite consensusFilter_paths.
  destruct (truthy (redis w !! session_key w)).
  { exists [RedisGet (session_key w)]. split; [by rewrite hit_path_world|done]. }
  destruct (truthy (redis w !! lock_key w)).
  { eexists. split; [reflexivity|]. by apply (Qapp [_] [_]). }
  assert (extends Q w (probing w)) as Hstart.
  { eexists. split; [reflexivity|]. apply (Qapp [_] [_; _]); [done|]. by apply (Qapp [_] [_]). }
  etrans; [exact Hstart|]. clear Hstart.
  assert (Keeps (extends Q) (for_of (sorted_nodes w) [] run_probe)) as Hprobes.
  { apply (Keeps_for_of (extends Q)). intros logs n Hn. unfold probe.
    apply (Keeps_bind (extends Q)); [apply extends_sendRelay, Hprobe, Hin, Hn|].
    intros [payload|message|].
    - destruct (parse_block_height payload); [apply Keeps_throw; apply _..|].
      apply (Keeps_bind (extends Q)); [apply extends_emit, Hlog|].
      intros _. apply Keeps_ret; apply _.
    - apply (Keeps_bind (extends Q)); [apply extends_emit, Hlog|]. intros _.
      apply (Keeps_bind (extends Q)); [apply extends_recordMetric, Hfail, Hin, Hn|].
      intros _. apply Keeps_ret; apply _.
    - apply Keeps_ret; apply _. }
  specialize (Hprobes (probing w)).
  destruct (probes_spec syncCheck blockchain applicationID applicationPublicKey pocketAAT
              pocketConfiguration (sorted_nodes w) [] (probing w)) as [_ Hlogs].
  unfold bind.
  destruct (for_of (sorted_nodes w) [] run_probe (probing w)) as [[logs|e] w1]; [|done].
  etrans; [exact Hprobes|]. clear Hprobes.
  destruct (Hlogs logs eq_refl) as (extra & Heq & Hsub). simpl in Heq. subst extra.
  assert (∀ l, l ∈ js_sort by_blockHeight logs → NodeSyncLog.node l ∈ nodesArray w) as Hnode.
  { intros l Hl. rewrite js_sort_Permutation in Hl. apply Hin.
    eapply elem_of_sublist; [|exact Hsub]. by apply list_elem_of_fmap_2. }
  clear Hlogs Hsub. revert w1. change (Keeps (extends Q) (run_after_probes (session_key w) logs)).
  unfold after_probes.
  destruct (_ <=? 2)%nat.
  { apply (Keeps_bind (extends Q)); [apply extends_emit, Hlog|].
    intros _. apply Keeps_ret; apply _. }
  unfold consensus.
  destruct (js_sort by_blockHeight logs) as [|first [|second rest]] eqn:Hsorted;
    [apply Keeps_throw; apply _..|].
  destruct (_ || _).
  { apply (Keeps_bind (extends Q)); [apply extends_emit, Hlog|].
    intros _. apply Keeps_ret; apply _. }
  destruct (JsNum.gt _ _).
  { apply (Keeps_bind (extends Q)); [apply extends_emit, Hlog|].
    intros _. apply Keeps_ret; apply _. }
  apply (Keeps_bind (extends Q)).
  - apply (Keeps_for_of (extends Q)). intros [sn sl] l Hl. unfold admission.
    destruct (in_sync _ _ _).
    + apply (Keeps_bind (extends Q)); [apply extends_emit, Hlog|].
      intros _. apply Keeps_ret; apply _.
    + apply (Keeps_bind (extends Q)); [apply extends_emit, Hlog|]. intros _.
      apply (Keeps_bind (extends Q)); [apply extends_recordMetric, Hbehind, Hnode, Hl|].
      intros _. apply Keeps_ret; apply _.
  - intros [sn sl].
    apply (Keeps_bind (extends Q)); [apply extends_emit, Hlog|]. intros _.
    apply (Keeps_bind (extends Q)); [apply extends_redis_set, Hset|]. intros _.
    apply (Keeps_bind (extends Q)); [|intros _; apply Keeps_ret; apply _].
    destruct (_ <? 5)%nat; [|apply Keeps_ret; apply _].
    apply (Keeps_bind (extends Q)); [apply extends_sendRelay, Hchallenge|].
    intros r. apply extends_emit, Hlog.
Qed.

(** Whatever holds of every event the checker can emit for the nodes of the
    array holds of every event of a run. *)
Lemma run_appends (P : Event → Prop) (w : World) :
  (∀ k, P (RedisGet k)) → (∀ k v args, P (RedisSet k v args)) →
  (∀ l t r s, P (LoggerLog l t r s)) →
  (∀ n, n ∈ nodesArray w →
        P (SendRelay (probe_request syncCheck blockchain pocketAAT pocketConfiguration n))) →
  P (SendRelay (challenge_request syncCheck blockchain pocketAAT pocketConfiguration)) →
  (∀ n, n ∈ nodesArray w →
        P (UpdateServiceLog (service_key blockchain (publicKey n)) Failure)) →
  (∀ n message, n ∈ nodesArray w →
     P (RecordMetric {| Metric.requestID := "synccheck";
                        Metric.applicationID := applicationID;
                        Metric.appPubKey := applicationPublicKey;
                        Metric.blockchain := blockchain;
                        Metric.serviceNode := publicKey n;
                        Metric.relayStart := HrTime;
                        Metric.result := 500;
                        Metric.bytes := Z.of_nat (String.length message);
                        Metric.delivered := false;
                        Metric.fallback := false;
                        Metric.method := "synccheck";
                        Metric.error := message |})) →
  (∀ n, n ∈ nodesArray w →
     P (RecordMetric {| Metric.requestID := "synccheck";
                        Metric.applicationID := applicationID;
                        Metric.appPubKey := applicationPublicKey;
                        Metric.blockchain := blockchain;
                        Metric.serviceNode := publicKey n;
                        Metric.relayStart := Literal 0 0;
                        Metric.result := 500;
                        Metric.bytes := Z.of_nat (String.length "OUT OF SYNC");
                        Metric.delivered := false;
                        Metric.fallback := false;
                        Metric.method := "synccheck";
                        Metric.error := "OUT OF SYNC" |})) →
  appends P w (run_filter w).2.
Proof.
  intros Hget Hset Hlog Hprobe Hchallenge Hupdate Hfail Hbehind.
  apply (run_extends (Forall P)).
  - constructor.
  - intros a b Ha Hb. by apply Forall_app.
  - intros k. repeat constructor. apply Hget.
  - intros k v args. repeat constructor. apply Hset.
  - intros l t r s. repeat constructor. apply Hlog.
  - intros n Hn. repeat constructor. by apply Hprobe.
  - repeat constructor. apply Hchallenge.
  - intros n message Hn. repeat constructor; [by apply Hupdate|by apply Hfail].
  - intros n Hn. repeat constructor; [by apply Hupdate|by apply Hbehind].
Qed.

(** X1. Every relay a run sends is of one of two kinds: the probe of a node
    of the array it was given, with the configuration of the caller but a
    time-out of 5000, not in consensus mode; or the challenge, addressed to no
    node, in consensus mode, with five consensus nodes, a time-out of 2000 and
    disputed responses refused. *)
Theorem relays_of_a_run (w : World) :
  ∃ events,
    trace (run_filter w).2 = (trace w ++ events)%list
    ∧ Forall (λ e, ∀ req, e = SendRelay req →
         relay_data req = syncCheck ∧ relay_blockchain req = blockchain
         ∧ relay_aat req = pocketAAT
         ∧ ((∃ n, n ∈ nodesArray w ∧ relay_node req = Some n
                  ∧ relay_consensus req = false
                  ∧ relay_configuration req = updateConfigurationTimeout pocketConfiguration
                  ∧ requestTimeOut (relay_configuration req) = 5000)
            ∨ (relay_node req = None ∧ relay_consensus req = true
               ∧ relay_configuration req = updateConfigurationConsensus pocketConfiguration
               ∧ consensusNodeCount (relay_configuration req) = 5
               ∧ requestTimeOut (relay_configuration req) = 2000
               ∧ acceptDisputedResponses (relay_configuration req) = false))) events.
Proof.
  apply run_appends; try (intros; discriminate).
  - intros n Hn req [= <-]. repeat split. left. exists n. by repeat split.
  - intros req [= <-]. repeat split. right. by repeat split.
Qed.

(** X2. Every metric a run records is a failure of method synccheck: result
    500, not delivered, no fallback, for the application and the chain of the
    call and for a node of the array.  The checker records no success. *)
Theorem metrics_of_a_run (w : World) :
  ∃ events,
    trace (run_filter w).2 = (trace w ++ events)%list
    ∧ Forall (is_checker_metric (nodesArray w)) events.
Proof.
  apply run_appends; try (intros; intros ?; discriminate).
  - intros n message Hn m [= <-]. repeat split. by exists n.
  - intros n Hn m [= <-]. repeat split. by exists n.
Qed.

Lemma probed_app a b : probed (a ++ b) = (probed a ++ probed b)%list.
Proof. apply omap_app. Qed.

Lemma challenges_app a b : challenges (a ++ b) = (challenges a ++ challenges b)%list.
Proof. apply omap_app. Qed.

Lemma no_relay_probed events :
  Forall (λ e, ∀ req, e ≠ SendRelay req) events → probed events = [] ∧ challenges events = [].
Proof.
  induction 1 as [|e t He Ht [IH1 IH2]]; [done|].
  change (e :: t) with ([e] ++ t)%list. rewrite probed_app, challenges_app, IH1, IH2.
  destruct e; try done. by destruct (He req).
Qed.

(** One probe: the relay to the node, then lines of log and metrics. *)
Lemma probe_trace logs n w :
  ∃ rest, trace (run_probe logs n w).2 = (trace w ++ rest)%list
          ∧ probed rest = [n] ∧ challenges rest = [].
Proof.
  unfold probe, bind, sendRelay, logger_log, recordMetric, emit, ret, throw. simpl.
  match goal with |- context [network ?a ?b] => destruct (network a b) as [payload|message|] end;
    simpl; [destruct (parse_block_height payload); simpl|..];
    rewrite <- ?app_assoc; by eexists.
Qed.

(** The probes go to the nodes of the list in its order, one each, up to
    the first payload that does not parse. *)
Lemma probes_trace nodes acc w :
  ∃ rest, trace (for_of nodes acc run_probe w).2 = (trace w ++ rest)%list
          ∧ challenges rest = []
          ∧ probed rest `prefix_of` nodes
          ∧ (∀ logs, (for_of nodes acc run_probe w).1 = Returned logs → probed rest = nodes).
Proof.
  revert acc w. induction nodes as [|n t IH]; intros acc w.
  { exists []. simpl. by rewrite app_nil_r. }
  rewrite for_of_cons. destruct (probe_trace acc n w) as (r1 & Ht1 & Hp1 & Hc1).
  destruct (run_probe acc n w) as [[a|e] w1]; simpl in *.
  - destruct (IH a w1) as (r2 & Ht2 & Hc2 & Hp2 & Hall).
    exists (r1 ++ r2)%list. rewrite Ht2, Ht1, app_assoc, probed_app, challenges_app, Hp1, Hc1, Hc2.
    split; [done|]. split; [done|]. split.
    + by apply (prefix_app [n]).
    + intros logs Hlogs. simpl. f_equal. by apply (Hall logs).
  - exists r1. rewrite Hp1. split; [done|]. split; [done|]. split; [|done].
    by exists t.
Qed.

(** After the probes no node is addressed any more; the challenge is sent
    exactly when the run returns fewer than five nodes. *)
Lemma after_probes_trace key logs w :
  ∃ rest, trace (run_after_probes key logs w).2 = (trace w ++ rest)%list
          ∧ probed rest = []
          ∧ challenges rest
            = match (run_after_probes key logs w).1 with
              | Returned (FreshArray l) =>
                  if (length l <? 5)%nat
                  then [challenge_request syncCheck blockchain pocketAAT pocketConfiguration]
                  else []
              | _ => []
              end.
Proof.
  unfold after_probes. destruct (_ <=? 2)%nat.
  { by eexists. }
  unfold consensus.
  destruct (js_sort by_blockHeight logs) as [|first [|second rest]];
    [exists []; simpl; by rewrite app_nil_r..|].
  destruct (_ || _); [by eexists|]. destruct (JsNum.gt _ _); [by eexists|].
  unfold bind.
  assert (Keeps (appends (λ e, ∀ req, e ≠ SendRelay req))
                (for_of (first :: second :: rest) ([], [])
                   (run_admission (NodeSyncLog.blockHeight first)))) as Hloop.
  { apply (Keeps_for_of _). intros [sn sl] l _. unfold admission.
    destruct (in_sync _ _ _).
    - apply (Keeps_bind _); [by apply appends_emit|]. intros _. apply Keeps_ret; apply _.
    - apply (Keeps_bind _); [by apply appends_emit|]. intros _.
      apply (Keeps_bind _); [by apply appends_recordMetric|]. intros _. apply Keeps_ret; apply _. }
  destruct (Hloop w) as (r1 & Ht1 & Hnone). apply no_relay_probed in Hnone as [Hp1 Hc1].
  destruct (admission_spec syncAllowance blockchain applicationID applicationPublicKey
              (NodeSyncLog.blockHeight first) (first :: second :: rest) ([], []) w)
    as (w1 & Hrun & _ & _).
  rewrite Hrun in *. simpl in Ht1. cbn [fst snd app].
  set (l := NodeSyncLog.node <$> filter _ _).
  unfold logger_log, emit, redis_set, sendRelay, ret. cbn [fst snd app].
  destruct (length l <? 5)%nat eqn:Hfive; cbn [fst snd trace]; rewrite ?Hfive;
    rewrite Ht1, <- !app_assoc; eexists; (split; [reflexivity|]);
    rewrite probed_app, challenges_app, Hp1, Hc1; by split.
Qed.

(** X3. A run probes each node at most once, in the order of the public
    keys: the nodes its relays are addressed to are, in order, a start of the
    sorted array; all of it when the run takes the probes and returns; none
    at all, and no challenge either, on a hit of the cache or under a held
    lock. *)
Theorem probes_of_a_run (w : World) :
  ∃ events,
    trace (run_filter w).2 = (trace w ++ events)%list
    ∧ probed events `prefix_of` js_sort by_publicKey (nodesArray w)
    ∧ (truthy (redis w !! session_key w) = true ∨ truthy (redis w !! lock_key w) = true →
       probed events = [] ∧ challenges events = [])
    ∧ (truthy (redis w !! session_key w) = false → truthy (redis w !! lock_key w) = false →
       ∀ ref, (run_filter w).1 = Returned ref →
       probed events = js_sort by_publicKey (nodesArray w)).
Proof.
  rewrite consensusFilter_paths. fold (sorted_nodes w).
  destruct (truthy (redis w !! session_key w)) eqn:Hhit.
  { exists [RedisGet (session_key w)]. split; [by rewrite hit_path_world|].
    split; [apply prefix_nil|]. by split. }
  destruct (truthy (redis w !! lock_key w)) eqn:Hlock.
  { eexists. split; [reflexivity|]. split; [apply prefix_nil|]. by split. }
  unfold bind.
  destruct (probes_trace (sorted_nodes w) [] (probing w)) as (r1 & Ht1 & Hc1 & Hp1 & Hall).
  destruct (for_of (sorted_nodes w) [] run_probe (probing w)) as [[logs|e] w1]; simpl in *.
  - destruct (after_probes_trace (session_key w) logs w1) as (r2 & Ht2 & Hp2 & _).
    rewrite Ht2, Ht1, <- !app_assoc. eexists. split; [reflexivity|].
    simpl. rewrite probed_app, Hp2, app_nil_r, (Hall logs eq_refl).
    split; [done|]. split; [by intros [|]|done].
  - rewrite Ht1, <- !app_assoc. eexists. split; [reflexivity|].
    split; [done|]. split; [by intros [|]|done].
Qed.

(** X4. The challenge relay is sent exactly when the run took the probes and
    returns fewer than five nodes, and then once. *)
Theorem challenge_of_a_run (w : World) :
  ∃ events,
    trace (run_filter w).2 = (trace w ++ events)%list
    ∧ challenges events
      = match (run_filter w).1 with
        | Returned (FreshArray l) =>
            if truthy (redis w !! session_key w) then []
            else if (length l <? 5)%nat
                 then [challenge_request syncCheck blockchain pocketAAT pocketConfiguration]
                 else []
        | _ => []
        end.
Proof.
  rewrite consensusFilter_paths. fold (sorted_nodes w).
  destruct (truthy (redis w !! session_key w)) eqn:Hhit.
  { exists [RedisGet (session_key w)]. split; [by rewrite hit_path_world|].
    match goal with |- _ = match ?o with _ => _ end => by destruct o as [[|?]|?] end. }
  destruct (truthy (redis w !! lock_key w)) eqn:Hlock.
  { by eexists. }
  unfold bind.
  destruct (probes_trace (sorted_nodes w) [] (probing w)) as (r1 & Ht1 & Hc1 & _).
  destruct (for_of (sorted_nodes w) [] run_probe (probing w)) as [[logs|e] w1]; simpl in *.
  - destruct (after_probes_trace (session_key w) logs w1) as (r2 & Ht2 & _ & Hc2).
    rewrite Ht2, Ht1, <- !app_assoc. eexists. split; [reflexivity|].
    simpl. by rewrite challenges_app, Hc1.
  - rewrite Ht1, <- !app_assoc. eexists. split; [reflexivity|]. done.
Qed.

(** ** What a run of consensusFilter leaves in the cache *)

Lemma stringify_strings_not_empty l : JSON.stringify_strings l ≠ EmptyString.
Proof. done. Qed.

Lemma after_probes_cache key logs w :
  match (run_after_probes key logs w).1 with
  | Returned (FreshArray l) =>
      redis (run_after_probes key logs w).2
      = <[key := JSON.stringify_strings (publicKey <$> l)]> (redis w)
  | _ => redis (run_after_probes key logs w).2 = redis w
  end.
Proof.
  unfold after_probes. destruct (_ <=? 2)%nat; [done|].
  unfold consensus.
  destruct (js_sort by_blockHeight logs) as [|first [|second rest]]; [done..|].
  destruct (_ || _); [done|]. destruct (JsNum.gt _ _); [done|].
  unfold bind.
  destruct (admission_spec syncAllowance blockchain applicationID applicationPublicKey
              (NodeSyncLog.blockHeight first) (first :: second :: rest) ([], []) w)
    as (w1 & -> & Hredis & _).
  cbn [fst snd app]. rewrite list_fmap_compose.
  unfold logger_log, emit, redis_set, sendRelay, ret. cbn [fst snd app].
  destruct (_ <? 5)%nat; cbn [fst snd redis bool_decide andb]; by rewrite <- Hredis.
Qed.

(** The session key after a run that found it empty and the lock free. *)
Lemma run_session_entry w :
  truthy (redis w !! session_key w) = false →
  truthy (redis w !! lock_key w) = false →
  match (run_filter w).1 with
  | Returned (FreshArray l) =>
      redis (run_filter w).2 !! session_key w
      = Some (JSON.stringify_strings (publicKey <$> l))
  | _ => redis (run_filter w).2 !! session_key w = redis w !! session_key w
  end.
Proof.
  intros Hmiss Hlock. rewrite consensusFilter_paths, Hmiss, Hlock. unfold bind.
  destruct (probes_spec syncCheck blockchain applicationID applicationPublicKey pocketAAT
              pocketConfiguration (sorted_nodes w) [] (probing w)) as [Hr _].
  assert (<[lock_key w := "true"]> (redis w) !! session_key w = redis w !! session_key w)
    as Hother.
  { apply lookup_insert_ne. by apply (str_prefixed_ne "lock-" (session_key w)). }
  destruct (for_of _ _ _ (probing w)) as [[logs|e] w1]; simpl in *; [|by rewrite Hr].
  pose proof (after_probes_cache (session_key w) logs w1) as Hcache.
  destruct (run_after_probes (session_key w) logs w1) as [[[|l]|e] w2]; simpl in *;
    rewrite Hcache, ?Hr; [done| |done].
  apply lookup_insert_eq.
Qed.

Lemma service_updates_app a b :
  service_updates (a ++ b) = (service_updates a ++ service_updates b)%list.
Proof. apply omap_app. Qed.

Lemma metrics_app a b : metrics (a ++ b) = (metrics a ++ metrics b)%list.
Proof. apply omap_app. Qed.

Lemma service_updates_Forall (P : string * ServiceResult → Prop) (events : list Event) :
  Forall (λ e, ∀ k r, e = UpdateServiceLog k r → P (k, r)) events →
  Forall P (service_updates events).
Proof.
  induction 1 as [|e t He Ht IH]; [constructor|].
  change (e :: t) with ([e] ++ t)%list. rewrite service_updates_app.
  apply Forall_app. split; [|done]. destruct e; try constructor; [|constructor].
  by apply He.
Qed.

(** The string keys of the cache that a run leaves as they were. *)
Lemma run_redis_frame (w : World) :
  (∀ k, k ≠ session_key w → k ≠ lock_key w →
        redis (run_filter w).2 !! k = redis w !! k)
  ∧ (truthy (redis w !! session_key w) = true → redis (run_filter w).2 = redis w)
  ∧ (truthy (redis w !! lock_key w) = true → redis (run_filter w).2 = redis w).
Proof.
  rewrite consensusFilter_paths.
  destruct (truthy (redis w !! session_key w)).
  { rewrite hit_path_world. by repeat split. }
  destruct (truthy (redis w !! lock_key w)); [by repeat split|].
  split; [|by split]. intros k Hk Hlock. unfold bind.
  destruct (probes_spec syncCheck blockchain applicationID applicationPublicKey pocketAAT
              pocketConfiguration (sorted_nodes w) [] (probing w)) as [Hr _].
  destruct (for_of _ _ _ (probing w)) as [[logs|e] w1]; simpl in *.
  - destruct (after_probes_spec syncCheck syncAllowance blockchain applicationID
                applicationPublicKey pocketAAT pocketConfiguration (session_key w) logs w1)
      as [[->|[v ->]] _]; rewrite ?lookup_insert_ne, Hr by done; by apply lookup_insert_ne.
  - rewrite Hr. by apply lookup_insert_ne.
Qed.

(** X5. A run touches the cache at the key of the session, at the key of its
    lock and at the service log entries of nodes of its array, to which it
    only adds failures.  Every other string key holds what it held; on a hit
    of the session key and under a held lock the string keys are all as they
    were and no service log entry is updated. *)
Theorem cache_frame_of_a_run (w : World) :
  (∀ k, k ≠ session_key w → k ≠ lock_key w →
        redis (run_filter w).2 !! k = redis w !! k)
  ∧ (truthy (redis w !! session_key w) = true → redis (run_filter w).2 = redis w)
  ∧ (truthy (redis w !! lock_key w) = true → redis (run_filter w).2 = redis w)
  ∧ ∃ events,
      trace (run_filter w).2 = (trace w ++ events)%list
      ∧ Forall (λ update,
                  update.2 = Failure
                  ∧ ∃ n, n ∈ nodesArray w
                         ∧ update.1 = service_key blockchain (publicKey n))
               (service_updates events)
      ∧ (truthy (redis w !! session_key w) = true ∨ truthy (redis w !! lock_key w) = true →
         service_updates events = []).
Proof.
  destruct (run_redis_frame w) as (Hframe & Hhit & Hheld).
  split; [done|]. split; [done|]. split; [done|].
  destruct (run_appends
              (λ e, ∀ k r, e = UpdateServiceLog k r →
                 (k, r).2 = Failure
                 ∧ ∃ n, n ∈ nodesArray w ∧ (k, r).1 = service_key blockchain (publicKey n)) w)
    as (events & Htrace & Hall); try (intros; discriminate).
  { intros n Hn k r [= <- <-]. split; [done|]. by exists n. }
  exists events. split; [done|]. split; [by apply service_updates_Forall|].
  intros Hquiet. revert Htrace. rewrite consensusFilter_paths.
  destruct (truthy (redis w !! session_key w)).
  { rewrite hit_path_world. intros Htrace. by apply app_inv_head in Htrace as <-. }
  destruct Hquiet as [?|Hlock]; [done|]. rewrite Hlock.
  intros Htrace. by apply app_inv_head in Htrace as <-.
Qed.

(** X6. When a run that started with no cached list and a free lock returns
    nodes of its own, the list it leaves in the cache under the session key is
    the JSON text of the public keys of exactly those nodes, in their order;
    when it returns the array of the caller, or throws, it leaves the session
    key as it found it. *)
Theorem cached_list_of_a_run (w w' : World) (o : Outcome NodesRef) :
  truthy (redis w !! session_key w) = false →
  truthy (redis w !! lock_key w) = false →
  run_filter w = (o, w') →
  (∀ l, o = Returned (FreshArray l) →
        redis w' !! session_key w = Some (JSON.stringify_strings (publicKey <$> l)))
  ∧ ((∀ l, o ≠ Returned (FreshArray l)) →
     redis w' !! session_key w = redis w !! session_key w).
Proof.
  intros Hmiss Hlock Hrun. pose proof (run_session_entry w Hmiss Hlock) as Hentry.
  rewrite Hrun in Hentry. simpl in Hentry. split.
  - by intros l ->.
  - intros Hnot. destruct o as [[|l]|e]; [done| |done]. by destruct (Hnot l).
Qed.

(** ** Heights that make the checker give up *)

(** X7. One node at height zero is enough to switch the filter off: when at
    least three probes succeed, every probed height is an integer, none is
    negative and one is zero, the run logs that the top result is invalid,
    returns the array it was given with all its nodes, and leaves the session
    key as it was. *)
Theorem zero_height_fails_open (w w1 : World) (logs : list NodeSyncLog.t) :
  truthy (redis w !! session_key w) = false →
  truthy (redis w !! lock_key w) = false →
  for_of (sorted_nodes w) [] run_probe (probing w) = (Returned logs, w1) →
  (3 ≤ length logs)%nat →
  Forall (λ l, ∃ z, NodeSyncLog.blockHeight l = Num z ∧ (0 ≤ z)%Z) logs →
  Exists (λ l, NodeSyncLog.blockHeight l = Num 0) logs →
  run_filter w
  = (Returned SameArray,
     {| redis := redis w1; nodesArray := nodesArray w1; relaysSent := relaysSent w1;
        trace := (trace w1 ++ [LoggerLog "error" (TopInvalid (Num 0))
                                         EmptyString EmptyString])%list |})
  ∧ redis w1 !! session_key w = redis w !! session_key w.
Proof.
  intros Hmiss Hlock Hprobe Hlen Hint Hzero. split.
  2:{ destruct (probes_spec syncCheck blockchain applicationID applicationPublicKey pocketAAT
                  pocketConfiguration (sorted_nodes w) [] (probing w)) as [Hr _].
      rewrite Hprobe in Hr. simpl in Hr. rewrite Hr.
      apply lookup_insert_ne. by apply (str_prefixed_ne "lock-" (session_key w)). }
  rewrite consensusFilter_paths, Hmiss, Hlock. unfold bind. rewrite Hprobe.
  unfold after_probes. destruct (Nat.leb_spec (length logs) 2) as [?|_]; [lia|].
  assert (Forall (λ l, JsNum.is_int (NodeSyncLog.blockHeight l)) logs) as Hint'.
  { eapply Forall_impl; [exact Hint|]. intros l (z & Hz & _). by exists z. }
  pose proof (sorted_by_blockHeight logs Hint') as Hsorted.
  pose proof (js_sort_length by_blockHeight logs) as Hlen'.
  rewrite <- (js_sort_Permutation by_blockHeight logs) in Hint, Hzero.
  destruct (js_sort by_blockHeight logs) as [|first [|second rest]];
    simpl in Hlen'; [lia..|].
  assert (NodeSyncLog.blockHeight first = Num 0) as Hfirst.
  { apply Forall_cons in Hint as [(z & Hz & Hpos) _].
    apply StronglySorted_inv in Hsorted as [_ Hlow].
    apply Exists_cons in Hzero as [Hzero|Hzero]; [done|].
    apply Exists_exists in Hzero as (l & Hl & Hl0).
    rewrite Forall_forall in Hlow. destruct (Hlow l Hl) as (x & y & Hx & Hy & Hxy).
    rewrite Hz in Hx. rewrite Hl0 in Hy. simplify_eq. rewrite Hz. f_equal. lia. }
  unfold consensus. rewrite Hfirst. reflexivity.
Qed.

(** X8. So is a pass in which no height can be read: when at least three
    probes succeed and every probed height is NaN, the run logs that the top
    result is invalid and returns the array it was given. *)
Theorem unreadable_heights_fail_open (w w1 : World) (logs : list NodeSyncLog.t) :
  truthy (redis w !! session_key w) = false →
  truthy (redis w !! lock_key w) = false →
  for_of (sorted_nodes w) [] run_probe (probing w) = (Returned logs, w1) →
  (3 ≤ length logs)%nat →
  Forall (λ l, NodeSyncLog.blockHeight l = NaN) logs →
  run_filter w
  = (Returned SameArray,
     {| redis := redis w1; nodesArray := nodesArray w1; relaysSent := relaysSent w1;
        trace := (trace w1 ++ [LoggerLog "error" (TopInvalid NaN)
                                         EmptyString EmptyString])%list |}).
Proof.
  intros Hmiss Hlock Hprobe Hlen Hnan.
  rewrite consensusFilter_paths, Hmiss, Hlock. unfold bind. rewrite Hprobe.
  unfold after_probes. destruct (Nat.leb_spec (length logs) 2) as [?|_]; [lia|].
  pose proof (js_sort_length by_blockHeight logs) as Hlen'.
  rewrite <- (js_sort_Permutation by_blockHeight logs) in Hnan.
  destruct (js_sort by_blockHeight logs) as [|first [|second rest]];
    simpl in Hlen'; [lia..|].
  apply Forall_cons in Hnan as [Hfirst _].
  unfold consensus. rewrite Hfirst. reflexivity.
Qed.

(** ** What a run can throw *)



(** ** One run after another *)

(** An array already ordered by public key is left as it is by the sort. *)
Lemma js_sort_sorted_id l :
  StronglySorted le_publicKey l → js_sort by_publicKey l = l.
Proof.
  induction 1 as [|x t Ht IH Hx]; [done|]. simpl. rewrite IH.
  destruct t as [|y t']; [done|]. simpl.
  apply Forall_cons in Hx as [Hxy _]. apply by_publicKey_le in Hxy.
  by destruct (Z.leb_spec (by_publicKey x y) 0); [|lia].
Qed.

(** The keys of the session are the same for the next call on the array. *)
Lemma next_run_keys w :
  sorted_nodes (run_filter w).2 = sorted_nodes w
  ∧ session_key (run_filter w).2 = session_key w
  ∧ lock_key (run_filter w).2 = lock_key w.
Proof.
  assert (sorted_nodes (run_filter w).2 = sorted_nodes w) as Hsame.
  { unfold sorted_nodes at 1. rewrite run_array. apply js_sort_sorted_id, sorted_by_publicKey. }
  assert (session_key (run_filter w).2 = session_key w) as Hkey.
  { change (syncedNodesKey blockchain (sorted_nodes (run_filter w).2)
            = syncedNodesKey blockchain (sorted_nodes w)). by rewrite Hsame. }
  split; [done|]. split; [done|].
  change (String.app "lock-" (session_key (run_filter w).2)
          = String.app "lock-" (session_key w)). by rewrite Hkey.
Qed.

(** X10. The lock keeps the next call from probing: after a run that took
    the probes and did not end with nodes of its own (it returned the array of
    the caller, or threw), the next run on the same array returns that array
    after two reads of the cache, sending no relay and writing nothing. *)
Theorem lock_stops_the_next_run (w w' : World) (o : Outcome NodesRef) :
  truthy (redis w !! session_key w) = false →
  truthy (redis w !! lock_key w) = false →
  run_filter w = (o, w') →
  (∀ l, o ≠ Returned (FreshArray l)) →
  run_filter w'
  = (Returned SameArray,
     {| redis := redis w'; nodesArray := nodesArray w'; relaysSent := relaysSent w';
        trace := (trace w' ++ [RedisGet (session_key w); RedisGet (lock_key w)])%list |}).
Proof.
  intros Hmiss Hlock Hrun Hnot.
  destruct (next_run_keys w) as (Hnodes & Hkey & Hlkey).
  pose proof (run_keeps_lock syncCheck syncAllowance blockchain applicationID
                applicationPublicKey pocketAAT pocketConfiguration w Hmiss Hlock) as Hheld.
  pose proof (run_session_entry w Hmiss Hlock) as Hentry.
  pose proof (run_array syncCheck syncAllowance blockchain applicationID
                applicationPublicKey pocketAAT pocketConfiguration w) as Harr.
  rewrite Hrun in *. simpl in *.
  assert (redis w' !! session_key w = redis w !! session_key w) as Hsame.
  { destruct o as [[|l]|e]; [done| |done]. by destruct (Hnot l). }
  rewrite consensusFilter_paths, Hkey, Hlkey, Hsame, Hmiss, Hheld. simpl.
  unfold lock_read. rewrite Hkey, Hlkey, Hnodes, Harr. reflexivity.
Qed.

(** Among nodes with distinct public keys, the nodes whose key is that of
    one of [l] are the nodes of [l]. *)
Lemma filter_by_publicKey (l nodes : list Node) :
  NoDup (publicKey <$> nodes) → l ⊆+ nodes →
  filter (λ n, publicKey n ∈ publicKey <$> l) nodes ≡ₚ l.
Proof.
  intros Hkeys Hsub.
  assert (NoDup nodes) as Hnodes by (by eapply NoDup_fmap_1).
  apply NoDup_Permutation.
  - by apply NoDup_filter.
  - apply submseteq_Permutation in Hsub as [k Hk]. rewrite Hk in Hnodes.
    by apply NoDup_app in Hnodes as [? _].
  - intros n. rewrite list_elem_of_filter. split.
    + intros [Hkey Hn]. apply list_elem_of_fmap in Hkey as (m & Hpk & Hm).
      assert (m ∈ nodes) as Hm' by (by eapply elem_of_submseteq).
      enough (n = m) by congruence.
      apply list_elem_of_lookup in Hn as [i Hi], Hm' as [j Hj].
      assert (i = j) as ->; [|congruence].
      apply (NoDup_lookup _ i j (publicKey n) Hkeys);
        rewrite list_lookup_fmap; [rewrite Hi|rewrite Hj]; simpl; congruence.
    + intros Hn. split; [by apply list_elem_of_fmap_2|by eapply elem_of_submseteq].
Qed.

(** The nodes a pass returns as its own are nodes of the array. *)
Lemma pass_returns_nodes_of_the_array (w w' : World) (l : list Node) :
  truthy (redis w !! session_key w) = false →
  truthy (redis w !! lock_key w) = false →
  run_filter w = (Returned (FreshArray l), w') →
  l ⊆+ nodesArray w.
Proof.
  intros Hmiss Hlock Hrun.
  rewrite consensusFilter_paths, Hmiss, Hlock in Hrun. unfold bind in Hrun.
  destruct (probes_spec syncCheck blockchain applicationID applicationPublicKey pocketAAT
              pocketConfiguration (sorted_nodes w) [] (probing w)) as [_ Hlogs].
  destruct (for_of _ _ _ (probing w)) as [[logs|e] w1]; [|done].
  destruct (Hlogs logs eq_refl) as (extra & Heq & Hsub). simpl in Heq. subst logs.
  destruct (after_probes_spec syncCheck syncAllowance blockchain applicationID
              applicationPublicKey pocketAAT pocketConfiguration (session_key w) extra w1)
    as [_ Href].
  rewrite Hrun in Href. destruct (Href _ eq_refl) as [|(l' & [= <-] & Hl)]; [done|].
  etrans; [exact Hl|]. etrans; [by apply sublist_submseteq|].
  apply Permutation_submseteq, js_sort_Permutation.
Qed.

(** X11. What a pass publishes the next call serves: after a run that took
    the probes and returned nodes of its own, the next run on the same array
    reads the cached list, sends no relay, writes nothing and returns the
    nodes of the sorted array whose public key is in the list; with pairwise
    distinct public keys these are the nodes the first run returned.  (The
    JSON reader is assumed to read back the list the run wrote.) *)
Theorem published_list_serves_the_next_run (w w' : World) (l : list Node) :
  truthy (redis w !! session_key w) = false →
  truthy (redis w !! lock_key w) = false →
  run_filter w = (Returned (FreshArray l), w') →
  JSON_parse_strings (JSON.stringify_strings (publicKey <$> l)) = Some (publicKey <$> l) →
  NoDup (publicKey <$> nodesArray w) →
  ∃ l',
    run_filter w'
    = (Returned (FreshArray l'),
       {| redis := redis w'; nodesArray := nodesArray w'; relaysSent := relaysSent w';
          trace := (trace w' ++ [RedisGet (session_key w)])%list |})
    ∧ l' = filter (λ n, publicKey n ∈ publicKey <$> l) (js_sort by_publicKey (nodesArray w))
    ∧ l' ≡ₚ l.
Proof.
  intros Hmiss Hlock Hrun Hparse Hkeys.
  destruct (next_run_keys w) as (Hnodes & Hkey & Hlkey).
  pose proof (run_session_entry w Hmiss Hlock) as Hentry.
  pose proof (run_array syncCheck syncAllowance blockchain applicationID
                applicationPublicKey pocketAAT pocketConfiguration w) as Harr.
  pose proof (pass_returns_nodes_of_the_array w w' l Hmiss Hlock Hrun) as Hsub.
  rewrite Hrun in *. simpl in *.
  eexists. split; [|split; [reflexivity|]].
  - rewrite consensusFilter_paths, Hkey, Hentry. simpl.
    rewrite (JSON_parse_strings_Some _ _ Hparse). simpl.
    unfold looked_up. rewrite Hkey, Hnodes, Harr, omap_id_Some, cached_nodes_filter.
    reflexivity.
  - apply filter_by_publicKey.
    + by rewrite js_sort_Permutation.
    + by rewrite js_sort_Permutation.
Qed.

End SyncChecker_effects.

(** Two keys made of a chain, a dash and a fingerprint are the same exactly
    when the chains and the fingerprints are. *)
Lemma session_key_inj (chain1 chain2 : string) (w1 w2 : World) :
  session_key chain1 w1 = session_key chain2 w2
  ↔ chain1 = chain2 ∧ fingerprint (nodesArray w1) = fingerprint (nodesArray w2).
Proof.
  unfold session_key, syncedNodesKey, sorted_nodes. fold (fingerprint (nodesArray w1)).
  fold (fingerprint (nodesArray w2)). split; [|by intros [-> ->]].
  intros Heq.
  pose proof (sha256_hex_length (canonical_json (js_sort by_publicKey (nodesArray w1)))) as H1.
  pose proof (sha256_hex_length (canonical_json (js_sort by_publicKey (nodesArray w2)))) as H2.
  fold (fingerprint (nodesArray w1)) in H1. fold (fingerprint (nodesArray w2)) in H2.
  revert Heq H1 H2. generalize (fingerprint (nodesArray w1)) (fingerprint (nodesArray w2)).
  intros f1 f2 Heq H1 H2.
  assert (String.length chain1 = String.length chain2) as Hlen.
  { apply (f_equal String.length) in Heq. rewrite !str_length_app in Heq. lia. }
  revert chain2 Heq Hlen. induction chain1 as [|c t IH]; intros [|c' t'] Heq Hlen;
    simpl in Hlen; try lia.
  - split; [done|]. by injection Heq.
  - injection Heq as -> Heq. destruct (IH t' Heq) as [-> ->]; [lia|done].
Qed.

(** X12. When the keys of two calls are the same: two session keys, and two
    lock keys, exactly when the chains are the same and the fingerprints are
    the same; a session key and a lock key exactly when the chain of the
    session key is the text lock- followed by the other chain and the
    fingerprints are the same. *)
Theorem keys_are_per_chain (chain1 chain2 : string) (w1 w2 : World) :
  (session_key chain1 w1 = session_key chain2 w2
   ↔ chain1 = chain2 ∧ fingerprint (nodesArray w1) = fingerprint (nodesArray w2))
  ∧ (lock_key chain1 w1 = lock_key chain2 w2
     ↔ chain1 = chain2 ∧ fingerprint (nodesArray w1) = fingerprint (nodesArray w2))
  ∧ (session_key chain1 w1 = lock_key chain2 w2
     ↔ chain1 = "lock-" ++ chain2
       ∧ fingerprint (nodesArray w1) = fingerprint (nodesArray w2)).
Proof.
  split; [apply session_key_inj|]. split.
  - rewrite <- session_key_inj. unfold lock_key. split; [|by intros ->].
    apply (inj (String.app "lock-")).
  - rewrite <- session_key_inj. reflexivity.
Qed.

Lemma str_app_cons c s t : String c s ++ t = String c (s ++ t).
Proof. reflexivity. Qed.

Lemma str_app_nil t : EmptyString ++ t = t.
Proof. reflexivity. Qed.

(** A chain followed by a dash and a text that does not start with the
    letter s never is the text service- followed by the chain and more. *)
Lemma service_prefix_apart (c : ascii) (f : string) :
  c ≠ "s"%char →
  ∀ n chain more, (String.length chain ≤ n)%nat →
    "service-" ++ chain ++ more ≠ chain ++ "-" ++ String c f.
Proof.
  intros Hc n. induction n as [n IH] using lt_wf_ind. intros chain more Hlen Heq.
  rewrite !str_app_cons, str_app_nil in Heq.
  do 7 (destruct chain as [|? chain];
        [rewrite ?str_app_cons, ?str_app_nil in Heq; by injection Heq|];
        rewrite !str_app_cons in Heq; injection Heq as <- Heq).
  destruct chain as [|? chain].
  { rewrite ?str_app_cons, ?str_app_nil in Heq. injection Heq as Heq _. by symmetry in Heq. }
  rewrite !str_app_cons in Heq. injection Heq as <- Heq.
  apply (IH (String.length chain)) in Heq; [done| |done]. simpl in Hlen. lia.
Qed.

(** X23. The service log entry of a node on a chain is kept under a key that
    is neither the session key nor the lock key of a call for that chain,
    whatever the chain, the node and the array of the call are: the updates
    of recordMetric never fall on the two keys the checker reads and
    writes. *)
Theorem service_keys_apart (chain serviceNode : string) (w : World) :
  service_key chain serviceNode ≠ session_key chain w
  ∧ service_key chain serviceNode ≠ lock_key chain w.
Proof.
  split.
  - unfold service_key, session_key, syncedNodesKey.
    pose proof (sha256_hex_length (canonical_json (sorted_nodes w))) as Hlen.
    pose proof (sha256_hex_digits (canonical_json (sorted_nodes w))) as Hhex.
    destruct (SHA256.sha256_hex (canonical_json (sorted_nodes w))) as [|c f]; [done|].
    apply Forall_cons in Hhex as [Hc _].
    apply (service_prefix_apart c f) with (n := String.length chain); [|done].
    by intros ->.
  - unfold service_key, lock_key. rewrite !str_app_cons. by intros [=].
Qed.

(** X19. The fingerprint does not depend on the order of the nodes when
    their public keys are pairwise distinct: every arrangement of such nodes
    has the same fingerprint. *)
Theorem fingerprint_order_independent (nodes other : list Node) :
  other ≡ₚ nodes →
  NoDup (publicKey <$> nodes) →
  fingerprint other = fingerprint nodes.
Proof.
  intros Hperm Hkeys. unfold fingerprint. f_equal. f_equal. symmetry.
  by apply js_sort_by_publicKey_unique.
Qed.

(** X20. One node more in the array changes the text that is hashed, so a
    fingerprint that stays the same when a node is appended is a collision of
    SHA-256: two different texts with the same digest. *)
Theorem fingerprint_changes_or_collides (nodes : list Node) (n : Node) :
  canonical_json (js_sort by_publicKey (nodes ++ [n]))
  ≠ canonical_json (js_sort by_publicKey nodes)
  ∧ (fingerprint (nodes ++ [n]) = fingerprint nodes →
     ∃ a b, a ≠ b ∧ SHA256.sha256_hex a = SHA256.sha256_hex b).
Proof.
  assert (canonical_json (js_sort by_publicKey (nodes ++ [n]))
          ≠ canonical_json (js_sort by_publicKey nodes)) as Htext.
  { intros Heq. pose proof (canonical_json_grows nodes n) as Hlt. rewrite Heq in Hlt. lia. }
  split; [done|]. intros Hsame. by eexists _, _.
Qed.

Lemma writes_app a b : writes (a ++ b) = (writes a ++ writes b)%list.
Proof. apply omap_app. Qed.

Lemma lookups_app a b : lookups (a ++ b) = (lookups a ++ lookups b)%list.
Proof. apply omap_app. Qed.

Lemma no_write_writes events :
  Forall (λ e, ∀ k v args, e ≠ RedisSet k v args) events → writes events = [].
Proof.
  induction 1 as [|e t He Ht IH]; [done|].
  change (e :: t) with ([e] ++ t)%list. rewrite writes_app, IH.
  destruct e; try done. by destruct (He key value args).
Qed.

Section SyncChecker_writes.
Context `{Platform}.
Variables (syncCheck : string) (syncAllowance : option Z)
          (blockchain applicationID applicationPublicKey pocketAAT : string)
          (pocketConfiguration : Configuration).

Local Abbreviation session_key := (session_key blockchain).
Local Abbreviation lock_key := (lock_key blockchain).
Local Abbreviation probing := (probing blockchain).
Local Abbreviation run_filter :=
  (consensusFilter syncCheck syncAllowance blockchain applicationID applicationPublicKey
                   pocketAAT pocketConfiguration).
Local Abbreviation run_probe :=
  (probe syncCheck blockchain applicationID applicationPublicKey pocketAAT pocketConfiguration).
Local Abbreviation run_after_probes :=
  (after_probes syncCheck syncAllowance blockchain applicationID applicationPublicKey
                pocketAAT pocketConfiguration).
Local Abbreviation run_admission :=
  (admission syncAllowance blockchain applicationID applicationPublicKey).

(** The probes write nothing to the cache. *)
Lemma probes_write_nothing nodes acc :
  Keeps (appends (λ e, ∀ k v args, e ≠ RedisSet k v args)) (for_of nodes acc run_probe).
Proof.
  apply (Keeps_for_of _). intros logs n _. unfold probe.
  apply (Keeps_bind _); [by apply appends_sendRelay|]. intros [payload|message|].
  - destruct (parse_block_height payload); [apply Keeps_throw; apply _..|].
    apply (Keeps_bind _); [by apply appends_emit|]. intros _. apply Keeps_ret; apply _.
  - apply (Keeps_bind _); [by apply appends_emit|]. intros _.
    apply (Keeps_bind _); [by apply appends_recordMetric|]. intros _. apply Keeps_ret; apply _.
  - apply Keeps_ret; apply _.
Qed.

(** After the probes the one write is that of the list of the nodes
    returned, with a life of 300 seconds. *)
Lemma after_probes_writes key logs w :
  ∃ rest, trace (run_after_probes key logs w).2 = (trace w ++ rest)%list
          ∧ writes rest
            = match (run_after_probes key logs w).1 with
              | Returned (FreshArray l) =>
                  [(key, JSON.stringify_strings (publicKey <$> l), [RStr "EX"; RInt 300])]
              | _ => []
              end.
Proof.
  unfold after_probes. destruct (_ <=? 2)%nat.
  { by eexists. }
  unfold consensus.
  destruct (js_sort by_blockHeight logs) as [|first [|second rest]];
    [exists []; simpl; by rewrite app_nil_r..|].
  destruct (_ || _); [by eexists|]. destruct (JsNum.gt _ _); [by eexists|].
  unfold bind.
  assert (Keeps (appends (λ e, ∀ k v args, e ≠ RedisSet k v args))
                (for_of (first :: second :: rest) ([], [])
                   (run_admission (NodeSyncLog.blockHeight first)))) as Hloop.
  { apply (Keeps_for_of _). intros [sn sl] l _. unfold admission.
    destruct (in_sync _ _ _).
    - apply (Keeps_bind _); [by apply appends_emit|]. intros _. apply Keeps_ret; apply _.
    - apply (Keeps_bind _); [by apply appends_emit|]. intros _.
      apply (Keeps_bind _); [by apply appends_recordMetric|]. intros _. apply Keeps_ret; apply _. }
  destruct (Hloop w) as (r1 & Ht1 & Hnone). apply no_write_writes in Hnone.
  destruct (admission_spec syncAllowance blockchain applicationID applicationPublicKey
              (NodeSyncLog.blockHeight first) (first :: second :: rest) ([], []) w)
    as (w1 & Hrun & _ & _).
  rewrite Hrun in *. simpl in Ht1. cbn [fst snd app].
  rewrite list_fmap_compose.
  set (l := NodeSyncLog.node <$> filter _ _).
  unfold logger_log, emit, redis_set, sendRelay, ret. cbn [fst snd app].
  destruct (length l <? 5)%nat eqn:Hfive; cbn [fst snd trace]; rewrite ?Hfive;
    rewrite Ht1, <- !app_assoc; eexists; (split; [reflexivity|]);
    by rewrite writes_app, Hnone.
Qed.

(** The SET commands of a run. *)
Lemma run_sets (w : World) :
  ∃ events,
    trace (run_filter w).2 = (trace w ++ events)%list
    ∧ writes events
      = if truthy (redis w !! session_key w) || truthy (redis w !! lock_key w) then []
        else (lock_key w, "true", [RStr "EX"; RInt 60])
             :: match (run_filter w).1 with
                | Returned (FreshArray l) =>
                    [(session_key w, JSON.stringify_strings (publicKey <$> l),
                      [RStr "EX"; RInt 300])]
                | _ => []
                end.
Proof.
  rewrite consensusFilter_paths.
  destruct (truthy (redis w !! session_key w)) eqn:Hhit.
  { exists [RedisGet (session_key w)]. by rewrite hit_path_world. }
  destruct (truthy (redis w !! lock_key w)) eqn:Hlock.
  { by eexists. }
  unfold bind.
  destruct (probes_write_nothing (sorted_nodes w) [] (probing w)) as (r1 & Ht1 & Hnone).
  apply no_write_writes in Hnone.
  destruct (for_of (sorted_nodes w) [] run_probe (probing w)) as [[logs|e] w1]; simpl in *.
  - destruct (after_probes_writes (session_key w) logs w1) as (r2 & Ht2 & Hw2).
    rewrite Ht2, Ht1, <- !app_assoc. eexists. split; [reflexivity|].
    simpl. by rewrite writes_app, Hnone, Hw2.
  - rewrite Ht1, <- !app_assoc. eexists. split; [reflexivity|]. simpl. by rewrite Hnone.
Qed.

(** X16. The writes of a run to the cache, all of them.  Its SET commands,
    in order: none on a hit of the cache or under a held lock; otherwise the
    lock, set to the text true for 60 seconds, and then, only when the run
    returns nodes of its own, the list of their public keys under the key of
    the session for 300 seconds.  Its updates of service log entries: one for
    each metric it records, in the same order, adding a failure to the entry
    of the node of the metric on the chain of the call. *)
Theorem writes_of_a_run (w : World) :
  ∃ events,
    trace (run_filter w).2 = (trace w ++ events)%list
    ∧ writes events
      = (if truthy (redis w !! session_key w) || truthy (redis w !! lock_key w) then []
         else (lock_key w, "true", [RStr "EX"; RInt 60])
              :: match (run_filter w).1 with
                 | Returned (FreshArray l) =>
                     [(session_key w, JSON.stringify_strings (publicKey <$> l),
                       [RStr "EX"; RInt 300])]
                 | _ => []
                 end)
    ∧ service_updates events
      = (λ m, (service_key blockchain (Metric.serviceNode m), Failure)) <$> metrics events.
Proof.
  destruct (run_sets w) as (events & Htrace & Hsets).
  destruct (run_extends syncCheck syncAllowance blockchain applicationID applicationPublicKey
              pocketAAT pocketConfiguration
              (λ piece, service_updates piece
                        = (λ m, (service_key blockchain (Metric.serviceNode m), Failure))
                            <$> metrics piece) w)
    as (events' & Htrace' & Hupdates); try done.
  { intros a b Ha Hb. by rewrite service_updates_app, metrics_app, fmap_app, Ha, Hb. }
  rewrite Htrace in Htrace'. apply app_inv_head in Htrace' as <-.
  by exists events.
Qed.

End SyncChecker_writes.

Section V1Controller_effects.
Context `{Platform} `{AppStore}.

(** One fetch: at most one call of the repository, for the identifier
    asked, and at most one write, under that identifier for 60 seconds. *)
Lemma fetchApp_effects (id : string) (w : World) :
  ∃ rest, trace (fetchApp id w).2 = (trace w ++ rest)%list
          ∧ Forall (λ wr, wr.1.1 = id ∧ wr.2 = [RStr "EX"; RInt 60]) (writes rest)
          ∧ (length (lookups rest) ≤ 1)%nat
          ∧ (truthy (redis w !! id) = true → lookups rest = []).
Proof.
  unfold fetchApp, repository_findById, bind, redis_get, redis_set, emit, ret, throw. simpl.
  destruct (truthy (redis w !! id)); simpl.
  - exists [RedisGet id]. split; [by destruct (new_Applications _)|].
    split; [constructor|]. split; [simpl; lia|done].
  - destruct (findById id); simpl; rewrite <- !app_assoc;
      (eexists; split; [reflexivity|]); simpl;
      (split; [by repeat constructor|]); (split; [lia|done]).
Qed.

Lemma verify_effects (ids : list string) (applicationID : string) (w : World) :
  ∃ rest, trace (verify ids applicationID w).2 = (trace w ++ rest)%list
          ∧ Forall (λ wr, wr.1.1 = applicationID ∧ wr.2 = [RStr "EX"; RInt 60]) (writes rest)
          ∧ (length (lookups rest) ≤ 1)%nat.
Proof.
  unfold verify, bind. destruct (fetchApp_effects applicationID w) as (r & Ht & Hw & Hl & _).
  destruct (fetchApp applicationID w) as [[application|e] w1]; simpl in *;
    [destruct (truthy _)|]; by exists r.
Qed.

(** The loop of lines 76-81: at most one call of the repository for each
    identifier, and writes under these identifiers only. *)
Lemma verify_loop_effects (applicationIDs ids : list string) (w : World) :
  ∃ rest, trace (for_of applicationIDs ids verify w).2 = (trace w ++ rest)%list
          ∧ Forall (λ wr, wr.1.1 ∈ applicationIDs ∧ wr.2 = [RStr "EX"; RInt 60]) (writes rest)
          ∧ (length (lookups rest) ≤ length applicationIDs)%nat.
Proof.
  revert ids w. induction applicationIDs as [|a t IH]; intros ids w.
  { exists []. simpl. by rewrite app_nil_r. }
  rewrite for_of_cons. unfold bind.
  destruct (verify_effects ids a w) as (r1 & Ht1 & Hw1 & Hl1).
  assert (Forall (λ wr : string * string * list RedisArg,
                    wr.1.1 ∈ a :: t ∧ wr.2 = [RStr "EX"; RInt 60]) (writes r1)) as Hw1'.
  { eapply Forall_impl; [exact Hw1|]. intros wr [-> ?]. split; [by left|done]. }
  destruct (verify ids a w) as [[acc|e] w1]; simpl in *.
  2:{ exists r1. split; [done|]. split; [done|lia]. }
  destruct (IH acc w1) as (r2 & Ht2 & Hw2 & Hl2).
  exists (r1 ++ r2)%list. rewrite Ht2, Ht1, <- app_assoc. split; [done|].
  rewrite writes_app, lookups_app, length_app. split; [|lia].
  apply Forall_app. split; [done|].
  eapply Forall_impl; [exact Hw2|]. intros wr [? ?]. split; [by right|done].
Qed.

(** X17. What one resolution of a load balancer costs: every write it makes
    to the cache expires after 60 seconds; with the verified list in the cache
    it calls the repository at most once, whatever the number of identifiers
    of the load balancer, and otherwise at most once for each identifier and
    once more for the application chosen. *)
Theorem resolution_effects
    (id : string) (applicationIDs : list string) (random : Q) (w : World) :
  ∃ events,
    trace (fetchRandomLoadBalancerApplication id applicationIDs random w).2
    = (trace w ++ events)%list
    ∧ Forall (λ wr, wr.2 = [RStr "EX"; RInt 60]) (writes events)
    ∧ (length (lookups events)
       ≤ if truthy (redis w !! ("applicationIDs-" ++ id)) then 1
         else length applicationIDs + 1)%nat.
Proof.
  assert (∃ r1, trace (verified id applicationIDs w).2 = (trace w ++ r1)%list
                ∧ Forall (λ wr, wr.2 = [RStr "EX"; RInt 60]) (writes r1)
                ∧ (length (lookups r1)
                   ≤ if truthy (redis w !! ("applicationIDs-" ++ id)) then 0
                     else length applicationIDs)%nat) as (r1 & Ht1 & Hw1 & Hl1).
  { unfold verified, bind, redis_get. simpl.
    destruct (truthy (redis w !! ("applicationIDs-" ++ id))); simpl.
    { exists [RedisGet ("applicationIDs-" ++ id)].
      split; [by destruct (JSON_parse_strings _)|]. by split; [constructor|]. }
    match goal with |- context [for_of applicationIDs [] verify ?w1] =>
      destruct (verify_loop_effects applicationIDs [] w1) as (r & Ht & Hw & Hl);
      destruct (for_of applicationIDs [] verify w1) as [[out|e] w2] end; simpl in *.
    - rewrite Ht, <- !app_assoc. eexists. split; [reflexivity|].
      change (RedisGet ("applicationIDs-" ++ id) :: (r ++ [RedisSet ("applicationIDs-" ++ id) (JSON.stringify_strings out) [RStr "EX"; RInt 60]])%list)
        with ([RedisGet ("applicationIDs-" ++ id)] ++ (r ++ [RedisSet ("applicationIDs-" ++ id) (JSON.stringify_strings out) [RStr "EX"; RInt 60]]))%list.
      rewrite !writes_app, !lookups_app, !length_app. simpl. split; [|lia].
      apply Forall_app. split; [|by repeat constructor].
      eapply Forall_impl; [exact Hw|]. by intros wr [_ ?].
    - rewrite Ht, <- !app_assoc. eexists. split; [reflexivity|].
      change (RedisGet ("applicationIDs-" ++ id) :: r)
        with ([RedisGet ("applicationIDs-" ++ id)] ++ r)%list.
      rewrite !writes_app, !lookups_app, !length_app. simpl. split; [|lia].
      eapply Forall_impl; [exact Hw|]. by intros wr [_ ?]. }
  unfold fetchRandomLoadBalancerApplication, bind.
  destruct (verified id applicationIDs w) as [[verifiedIDs|e] w1]; simpl in *.
  2:{ exists r1. split; [done|]. split; [done|]. destruct (truthy _); lia. }
  destruct (length verifiedIDs <? 1)%nat.
  { exists r1. split; [done|]. split; [done|]. destruct (truthy _); lia. }
  destruct (verifiedIDs !! _) as [chosen|].
  2:{ exists r1. split; [done|]. split; [done|]. destruct (truthy _); lia. }
  destruct (fetchApp_effects chosen w1) as (r2 & Ht2 & Hw2 & Hl2 & _).
  exists (r1 ++ r2)%list. rewrite Ht2, Ht1, <- app_assoc. split; [done|].
  rewrite writes_app, lookups_app, length_app. split.
  - apply Forall_app. split; [done|]. eapply Forall_impl; [exact Hw2|]. by intros wr [_ ?].
  - destruct (truthy _); lia.
Qed.

End V1Controller_effects.

(** ** The caches of the controller, one call after another *)

Section V1Controller_caches.
Context `{Platform} `{AppStore}.

(** X13. An application fetched from the repository is served from the cache
    by the next call: after a fetch that found no value and got an application
    whose text the cache keeps and reads back, a second fetch of the same
    identifier reads the cache once, calls the repository not at all, writes
    nothing and returns that application. *)
Theorem fetched_application_is_cached (id : string) (w : World) (application : Applications) :
  truthy (redis w !! id) = false →
  findById id = Some application →
  JSON_stringify_app (Some application) ≠ EmptyString →
  new_Applications (JSON_stringify_app (Some application)) = Some application →
  ∃ w1,
    fetchApp id w = (Returned (Some application), w1)
    ∧ fetchApp id w1
      = (Returned (Some application),
         {| redis := redis w1; nodesArray := nodesArray w1; relaysSent := relaysSent w1;
            trace := (trace w1 ++ [RedisGet id])%list |}).
Proof.
  intros Hmiss Hfound Htext Hback. apply String.eqb_neq in Htext.
  unfold fetchApp, repository_findById, bind, redis_get, redis_set, emit, ret, throw.
  simpl. rewrite Hmiss, Hfound. simpl. eexists. split; [reflexivity|].
  simpl. rewrite lookup_insert_eq. simpl. by rewrite Htext, Hback.
Qed.

(** X14. A verified list, once built, is what the following calls use: after
    a call that found no cached list and built one, a second call for the same
    load balancer reads the cached text and returns the same list whatever
    identifiers it is given, without fetching any application; and when that
    list is empty the resolution throws Forbidden again.  (The JSON reader is
    assumed to read back the list that was written.) *)
Theorem verified_list_is_cached
    (id : string) (applicationIDs others : list string) (random : Q)
    (w w1 : World) (verifiedIDs : list string) :
  truthy (redis w !! ("applicationIDs-" ++ id)) = false →
  verified id applicationIDs w = (Returned verifiedIDs, w1) →
  JSON_parse_strings (JSON.stringify_strings verifiedIDs) = Some verifiedIDs →
  verified id others w1
  = (Returned verifiedIDs,
     {| redis := redis w1; nodesArray := nodesArray w1; relaysSent := relaysSent w1;
        trace := (trace w1 ++ [RedisGet ("applicationIDs-" ++ id)])%list |})
  ∧ (verifiedIDs = [] →
     fetchRandomLoadBalancerApplication id others random w1
     = (Thrown (HttpError 403 "Load Balancer configuration invalid"),
        {| redis := redis w1; nodesArray := nodesArray w1; relaysSent := relaysSent w1;
           trace := (trace w1 ++ [RedisGet ("applicationIDs-" ++ id)])%list |})).
Proof.
  intros Hmiss Hbuilt Hback.
  assert (redis w1 !! ("applicationIDs-" ++ id) = Some (JSON.stringify_strings verifiedIDs))
    as Hcached.
  { revert Hbuilt. unfold verified, bind, redis_get. simpl. rewrite Hmiss. simpl.
    destruct (for_of applicationIDs [] verify _) as [[out|e] w2]; [|done].
    unfold redis_set, ret. simpl. intros [= <- <-]. simpl. apply lookup_insert_eq. }
  assert (verified id others w1
          = (Returned verifiedIDs,
             {| redis := redis w1; nodesArray := nodesArray w1; relaysSent := relaysSent w1;
                trace := (trace w1 ++ [RedisGet ("applicationIDs-" ++ id)])%list |})) as Hnext.
  { unfold verified, bind, redis_get. simpl. rewrite Hcached. simpl. by rewrite Hback. }
  split; [done|]. intros ->.
  unfold fetchRandomLoadBalancerApplication, bind. by rewrite Hnext.
Qed.

End V1Controller_caches.

(** ** checkDebug *)

Lemma toLowerCase_app a b : toLowerCase (a ++ b) = toLowerCase a ++ toLowerCase b.
Proof.
  induction a as [|c t IH]; [done|].
  change (String (lower c) (toLowerCase (t ++ b))
          = String (lower c) (toLowerCase t ++ toLowerCase b)).
  by rewrite IH.
Qed.

(** A text that lower-cases to [x ++ y] splits in two that lower-case to [x]
    and to [y]. *)
Lemma toLowerCase_split s x y :
  toLowerCase s = x ++ y →
  ∃ a b, s = a ++ b ∧ toLowerCase a = x ∧ toLowerCase b = y.
Proof.
  revert s. induction x as [|c t IH]; intros s Hs.
  { by exists EmptyString, s. }
  destruct s as [|d s']; [done|].
  change (String (lower d) (toLowerCase s') = String c (t ++ y)) in Hs.
  injection Hs as Hd Hs'. destruct (IH s' Hs') as (a & b & -> & Ha & Hb).
  exists (String d a), b. repeat split; [|done].
  simpl. by rewrite Hd, Ha.
Qed.

Lemma prefix_app_iff p s : String.prefix p s = true ↔ ∃ rest, s = p ++ rest.
Proof.
  revert s. induction p as [|c t IH]; intros s.
  { split; [by exists s|]. by destruct s. }
  destruct s as [|d s']; simpl.
  { split; [done|]. by intros [rest Hrest]. }
  destruct (ascii_dec c d) as [->|Hne].
  - rewrite IH. split; intros [rest Hrest]; exists rest.
    + by rewrite Hrest.
    + change (String d s' = String d (t ++ rest)) in Hrest. by injection Hrest.
  - split; [done|]. intros [rest Hrest].
    change (String d s' = String c (t ++ rest)) in Hrest. by injection Hrest as ->.
Qed.

Lemma includes_iff s p : includes s p = true ↔ ∃ a b, s = a ++ p ++ b.
Proof.
  induction s as [|c t IH].
  - change (includes EmptyString p) with (String.prefix p EmptyString || false).
    rewrite orb_false_r, prefix_app_iff. split.
    + intros [rest Hrest]. by exists EmptyString, rest.
    + intros (a & b & Hab). destruct a as [|? ?]; [by exists b|done].
  - change (includes (String c t) p) with (String.prefix p (String c t) || includes t p).
    rewrite orb_true_iff, prefix_app_iff, IH. split.
    + intros [[rest Hrest]|(a & b & ->)].
      * by exists EmptyString, rest.
      * by exists (String c a), b.
    + intros (a & b & Hab). destruct a as [|d a'].
      * left. by exists b.
      * right. change (String c t = String d (a' ++ p ++ b)) in Hab.
        injection Hab as _ ->. by exists a', b.
Qed.

(** X15. checkDebug answers true exactly for a user agent that holds the
    marker pocket-debug somewhere, in any mix of upper and lower case letters;
    an absent or empty user agent gives false. *)
Theorem checkDebug_spec (userAgent : option string) :
  checkDebug userAgent = true
  ↔ ∃ before marker after,
      userAgent = Some (before ++ marker ++ after)
      ∧ toLowerCase marker = "pocket-debug".
Proof.
  unfold checkDebug. destruct userAgent as [ua|]; simpl.
  2:{ split; [done|]. by intros (? & ? & ? & ? & _). }
  split.
  - destruct (negb _ && includes _ _) eqn:Hcond; [|done]. intros _.
    apply andb_true_iff in Hcond as [_ Hinc].
    apply includes_iff in Hinc as (x & y & Hxy).
    apply toLowerCase_split in Hxy as (a & rest & -> & Ha & Hrest).
    apply toLowerCase_split in Hrest as (m & b & -> & Hm & Hb).
    by exists a, m, b.
  - intros (a & m & b & [= ->] & Hm).
    assert (includes (toLowerCase (a ++ m ++ b)) "pocket-debug" = true) as ->.
    { apply includes_iff. exists (toLowerCase a), (toLowerCase b).
      by rewrite !toLowerCase_app, Hm. }
    assert (String.eqb (a ++ m ++ b) EmptyString = false) as ->; [|done].
    apply String.eqb_neq. intros Hempty. apply (f_equal String.length) in Hempty.
    rewrite !str_length_app in Hempty.
    assert (String.length m = 12%nat); [|simpl in *; lia].
    apply (f_equal String.length) in Hm. simpl in Hm.
    clear -Hm. revert Hm. generalize 12%nat. induction m as [|c t IH]; intros k; simpl.
    + done.
    + destruct k; [done|]. intros [= Hk]. f_equal. by apply IH.
Qed.

(** ** The examples of the specification, run on the model *)

(** C1, on the code. Probed heights 100, 100, 99, 98 (nodes aa, bb, cc, dd) with
    a sync allowance of 1: the run returns all four nodes, in ascending order
    of height; the node at height 98 is among them. *)
Example admission_example_allowance_1 :
  (Demo.run (Demo.heights "0x64" "0x64" "0x63" "0x62") (Some 1) ∅ Demo.nodes4).1
  = Returned (FreshArray [Demo.node "dd"; Demo.node "cc"; Demo.node "aa"; Demo.node "bb"]).
Proof. vm_compute. reflexivity. Qed.

(** The same heights with a sync allowance of 2: all four nodes again. *)
Example admission_example_allowance_2 :
  (Demo.run (Demo.heights "0x64" "0x64" "0x63" "0x62") (Some 2) ∅ Demo.nodes4).1
  = Returned (FreshArray [Demo.node "dd"; Demo.node "cc"; Demo.node "aa"; Demo.node "bb"]).
Proof. vm_compute. reflexivity. Qed.

(** C2, on the code. Probed heights 100, 100, 100, 90 with a sync allowance
    of 1: the run returns all four nodes, the one at height 90 first. *)
Example consensus_guard_example_low_outlier :
  (Demo.run (Demo.heights "0x64" "0x64" "0x64" "0x5a") (Some 1) ∅ Demo.nodes4).1
  = Returned (FreshArray [Demo.node "dd"; Demo.node "aa"; Demo.node "bb"; Demo.node "cc"]).
Proof. vm_compute. reflexivity. Qed.

(** Probed heights 200, 100, 100, 100: the run does not give up; it admits
    all four nodes and writes the four public keys to the cache. *)
Example consensus_guard_example_high_outlier :
  let '(o, w) := Demo.run (Demo.heights "0xc8" "0x64" "0x64" "0x64") (Some 1) ∅ Demo.nodes4 in
  o = Returned (FreshArray [Demo.node "bb"; Demo.node "cc"; Demo.node "dd"; Demo.node "aa"])
  ∧ redis w !! Demo.key4 = Some (JSON.stringify_strings ["bb"; "cc"; "dd"; "aa"]).
Proof. vm_compute. split; reflexivity. Qed.

(** Two nodes that share a public key and differ in their service URL keep
    their order in the sort, so the two arrangements of the pair have
    different fingerprints: X19 needs its distinct public keys. *)
Example fingerprint_of_twins :
  [Demo.twin1; Demo.twin2] ≡ₚ [Demo.twin2; Demo.twin1]
  ∧ String.eqb (fingerprint [Demo.twin1; Demo.twin2]) (fingerprint [Demo.twin2; Demo.twin1]) = false.
Proof. split; [apply Permutation_swap|vm_compute; reflexivity]. Qed.

(** C7 fails as stated: the writes of a run that probes are these two, and
    the write of the lock carries EX 60 and nothing else. *)
Lemma lock_written_without_NX :
  filter Demo.is_redis_set
    (trace (Demo.run (Demo.heights "0x64" "0x64" "0x63" "0x62") (Some 1) ∅ Demo.nodes4).2)
  = [ RedisSet ("lock-" ++ Demo.key4) "true" [RStr "EX"; RInt 60];
      RedisSet Demo.key4 (JSON.stringify_strings ["dd"; "cc"; "aa"; "bb"]) [RStr "EX"; RInt 300] ].
Proof. vm_compute. reflexivity. Qed.

(** C8 fails as stated: for an identifier that is neither in the cache nor
    in the repository, fetchApp calls findById once, writes nothing to the
    cache and returns no application; it throws what findById rejected
    with. *)
Lemma fetchApp_unknown_identifier :
  Demo.fetch [Demo.app1] "zz" ∅
  = (Thrown (EntityNotFound "zz"),
     {| redis := ∅; nodesArray := []; relaysSent := 0;
        trace := [RedisGet "zz"; FindById "zz"] |}).
Proof. vm_compute. reflexivity. Qed.

(** C9, on the code. A load balancer that names the applications a1, zz and
    a2, of which the repository holds a1 and a2, with nothing in the cache:
    the identifier zz is not dropped; the resolution stops at it with the
    rejection of findById, after a1 was fetched and before a2 is looked at,
    and no application is chosen. *)
Example load_balancer_unknown_application :
  Demo.resolve [Demo.app1; Demo.app2] ["a1"; "zz"; "a2"] (1 # 2) ∅
  = (Thrown (EntityNotFound "zz"),
     {| redis := {[ "a1" := Demo.application_json Demo.app1 ]}; nodesArray := [];
        relaysSent := 0;
        trace := [RedisGet "applicationIDs-lb";
                  RedisGet "a1"; FindById "a1";
                  RedisSet "a1" (Demo.application_json Demo.app1) [RStr "EX"; RInt 60];
                  RedisGet "zz"; FindById "zz"] |}).
Proof. vm_compute. reflexivity. Qed.

(** The same defect on the other path: with a cached verified list that
    names an application the repository no longer holds (and whose own cache
    entry is gone), the draw 1/2 picks that identifier and the resolution
    ends with the rejection of findById; the list is not verified again. *)
Example load_balancer_stale_list :
  let cache := {[ "applicationIDs-lb" := JSON.stringify_strings ["a1"; "a2"] ]} in
  @JSON_parse_strings (Demo.platform []) (JSON.stringify_strings ["a1"; "a2"]) = Some ["a1"; "a2"]
  ∧ (Demo.resolve [Demo.app1] ["a1"; "a2"] (1 # 2) cache).1 = Thrown (EntityNotFound "a2").
Proof. vm_compute. split; reflexivity. Qed.

(** ** The theorems at given inputs *)

(** C3 at heights 100, 100, 99, 98 with a sync allowance of 1. *)
Lemma out_of_sync_branch_unreachable_witness :
  ∃ w' events,
    Demo.run (Demo.heights "0x64" "0x64" "0x63" "0x62") (Some 1) ∅ Demo.nodes4
    = (Returned (FreshArray [Demo.node "dd"; Demo.node "cc"; Demo.node "aa"; Demo.node "bb"]), w')
    ∧ (∃ before, trace w' = (before ++ events)%list)
    ∧ Forall (λ e, ¬ out_of_sync_event e) events.
Proof.
  edestruct (@out_of_sync_branch_unreachable
               (Demo.platform (Demo.heights "0x64" "0x64" "0x63" "0x62"))
               "eth_blockNumber" (Some 1) "0021" "app" "apppk" "aat" Demo.configuration
               (Demo.world ∅ Demo.nodes4))
    as (w' & events & Hrun & _ & Htrace & Hnone).
  - vm_compute. reflexivity.
  - vm_compute. reflexivity.
  - vm_compute. reflexivity.
  - vm_compute. lia.
  - vm_compute. repeat constructor; eexists; reflexivity.
  - vm_compute. congruence.
  - vm_compute. congruence.
  - exists w', events. split; [exact Hrun|]. split; [eexists; exact Htrace|exact Hnone].
Defined.

(** X19 at the session of four nodes and its reversal. *)
Lemma fingerprint_order_independent_witness :
  fingerprint (rev Demo.nodes4) = fingerprint Demo.nodes4.
Proof.
  apply (fingerprint_order_independent Demo.nodes4 (rev Demo.nodes4)).
  - symmetry. apply Permutation_rev.
  - apply (bool_decide_unpack _). vm_compute. exact I.
Defined.

(** C5 at a session in which two of four probes succeed. *)
Lemma probe_count_fail_open_witness :
  ∃ w1,
    Demo.run [("aa", RelayError "timeout"); ("bb", Demo.answer "0x64"); ("dd", Demo.answer "0x64")]
             (Some 1) ∅ Demo.nodes4
    = (Returned SameArray,
       {| redis := redis w1; nodesArray := nodesArray w1; relaysSent := relaysSent w1;
          trace := (trace w1 ++ [LoggerLog "error" FewerThanThree "synccheck" EmptyString])%list |})
    ∧ nodesArray w1 ≡ₚ Demo.nodes4.
Proof.
  edestruct (@probe_count_fail_open
               (Demo.platform [("aa", RelayError "timeout"); ("bb", Demo.answer "0x64");
                               ("dd", Demo.answer "0x64")])
               "eth_blockNumber" (Some 1) "0021" "app" "apppk" "aat" Demo.configuration
               (Demo.world ∅ Demo.nodes4)) as [Hfew _].
  - vm_compute. reflexivity.
  - vm_compute. reflexivity.
  - vm_compute. reflexivity.
  - destruct Hfew as (Hrun & Hperm & _); [vm_compute; lia|].
    eexists. split; [exact Hrun|exact Hperm].
Defined.

(** C6 at a cache that lists two nodes of the session and a stranger. *)
Lemma consensusFilter_subset_witness :
  ∃ w',
    Demo.run [] (Some 1) {[ Demo.key4 := JSON.stringify_strings ["cc"; "aa"; "zz"] ]} Demo.nodes4
    = (Returned (FreshArray [Demo.node "aa"; Demo.node "cc"]), w')
    ∧ [Demo.node "aa"; Demo.node "cc"] ⊆+ Demo.nodes4.
Proof.
  eexists. split; [vm_compute; reflexivity|].
  refine (proj1 (@consensusFilter_subset (Demo.platform []) "eth_blockNumber" (Some 1) "0021"
                   "app" "apppk" "aat" Demo.configuration
                   (Demo.world {[ Demo.key4 := JSON.stringify_strings ["cc"; "aa"; "zz"] ]}
                               Demo.nodes4) _ (FreshArray [Demo.node "aa"; Demo.node "cc"]) _)).
  vm_compute. reflexivity.
Defined.

(** C7 at a session whose lock is held, and at one whose lock is free. *)
Lemma probe_lock_witness :
  Demo.run [] (Some 1) {[ "lock-" ++ Demo.key4 := "true" ]} Demo.nodes4
  = (Returned SameArray,
     lock_read "0021" (Demo.world {[ "lock-" ++ Demo.key4 := "true" ]} Demo.nodes4))
  ∧ redis (Demo.run (Demo.heights "0x64" "0x64" "0x63" "0x62") (Some 1) ∅ Demo.nodes4).2
      !! ("lock-" ++ Demo.key4) = Some "true".
Proof.
  split.
  - apply (@probe_lock (Demo.platform []) "eth_blockNumber" (Some 1) "0021" "app" "apppk" "aat"
             Demo.configuration (Demo.world {[ "lock-" ++ Demo.key4 := "true" ]} Demo.nodes4));
      vm_compute; reflexivity.
  - apply (@probe_lock (Demo.platform (Demo.heights "0x64" "0x64" "0x63" "0x62"))
             "eth_blockNumber" (Some 1) "0021" "app" "apppk" "aat"
             Demo.configuration (Demo.world ∅ Demo.nodes4));
      vm_compute; reflexivity.
Defined.

(** C8 at a cache that holds the application, and at an empty cache. *)
Lemma fetchApp_cache_hit_equivalence_witness :
  Demo.fetch [Demo.app1] "a1" {[ "a1" := Demo.application_json Demo.app1 ]}
  = (Returned (Some Demo.app1),
     {| redis := {[ "a1" := Demo.application_json Demo.app1 ]}; nodesArray := [];
        relaysSent := 0; trace := [RedisGet "a1"] |})
  ∧ Demo.fetch [Demo.app1] "a1" ∅
    = (Returned (Some Demo.app1),
       {| redis := {[ "a1" := Demo.application_json Demo.app1 ]}; nodesArray := [];
          relaysSent := 0;
          trace := [RedisGet "a1"; FindById "a1";
                    RedisSet "a1" (Demo.application_json Demo.app1) [RStr "EX"; RInt 60]] |}).
Proof.
  split.
  - refine (proj1 (@fetchApp_cache_hit_equivalence (Demo.store [Demo.app1]) "a1"
                     (Demo.world {[ "a1" := Demo.application_json Demo.app1 ]} []))
                  (Demo.application_json Demo.app1) _ _).
    + vm_compute. reflexivity.
    + vm_compute. congruence.
  - refine (proj2 (@fetchApp_cache_hit_equivalence (Demo.store [Demo.app1]) "a1"
                     (Demo.world ∅ [])) _).
    vm_compute. reflexivity.
Defined.

(** X21 at a load balancer of three identifiers, the second of them
    unknown. *)
Lemma resolution_fails_on_unknown_application_witness :
  ∃ w1,
    Demo.resolve [Demo.app1; Demo.app2] ["a1"; "zz"; "a2"] (1 # 2) ∅
    = (Thrown (EntityNotFound "zz"),
       {| redis := redis w1; nodesArray := nodesArray w1; relaysSent := relaysSent w1;
          trace := (trace w1 ++ [RedisGet "zz"; FindById "zz"])%list |}).
Proof.
  eexists.
  eapply (@resolution_fails_on_unknown_application (Demo.platform [])
            (Demo.store [Demo.app1; Demo.app2]) "lb" ["a1"] "zz" ["a2"] (1 # 2)
            (Demo.world ∅ [])).
  - vm_compute. reflexivity.
  - vm_compute. reflexivity.
  - vm_compute. reflexivity.
  - vm_compute. reflexivity.
Defined.


(** ** The further properties, on given sessions *)

(** X6 at a session whose four probes succeed. *)
Lemma cached_list_of_a_run_witness :
  redis (Demo.run (Demo.heights "0x64" "0x64" "0x63" "0x62") (Some 1) ∅ Demo.nodes4).2
    !! Demo.key4
  = Some (JSON.stringify_strings ["dd"; "cc"; "aa"; "bb"]).
Proof.
  edestruct (@cached_list_of_a_run (Demo.platform (Demo.heights "0x64" "0x64" "0x63" "0x62"))
               "eth_blockNumber" (Some 1) "0021" "app" "apppk" "aat" Demo.configuration
               (Demo.world ∅ Demo.nodes4)) as [Hfresh _].
  - vm_compute. reflexivity.
  - vm_compute. reflexivity.
  - vm_compute. reflexivity.
  - specialize (Hfresh _ eq_refl). vm_compute in Hfresh. vm_compute. exact Hfresh.
Defined.

(** X7 at a session one node of which answers height zero. *)
Lemma zero_height_fails_open_witness :
  ∃ w1,
    Demo.run (Demo.heights "0x0" "0x64" "0x64" "0x64") (Some 1) ∅ Demo.nodes4
    = (Returned SameArray,
       {| redis := redis w1; nodesArray := nodesArray w1; relaysSent := relaysSent w1;
          trace := (trace w1 ++ [LoggerLog "error" (TopInvalid (Num 0))
                                           EmptyString EmptyString])%list |}).
Proof.
  edestruct (@zero_height_fails_open (Demo.platform (Demo.heights "0x0" "0x64" "0x64" "0x64"))
               "eth_blockNumber" (Some 1) "0021" "app" "apppk" "aat" Demo.configuration
               (Demo.world ∅ Demo.nodes4)) as [Hrun _].
  - vm_compute. reflexivity.
  - vm_compute. reflexivity.
  - vm_compute. reflexivity.
  - simpl. lia.
  - repeat (constructor; [eexists; split; [reflexivity|lia]|]). constructor.
  - by left.
  - eexists. exact Hrun.
Defined.

(** X8 at a session whose nodes answer a text that holds no number. *)
Lemma unreadable_heights_fail_open_witness :
  ∃ w1,
    Demo.run (Demo.heights "zz" "zz" "zz" "zz") (Some 1) ∅ Demo.nodes4
    = (Returned SameArray,
       {| redis := redis w1; nodesArray := nodesArray w1; relaysSent := relaysSent w1;
          trace := (trace w1 ++ [LoggerLog "error" (TopInvalid NaN)
                                           EmptyString EmptyString])%list |}).
Proof.
  eexists.
  eapply (@unreadable_heights_fail_open (Demo.platform (Demo.heights "zz" "zz" "zz" "zz"))
            "eth_blockNumber" (Some 1) "0021" "app" "apppk" "aat" Demo.configuration
            (Demo.world ∅ Demo.nodes4)).
  - vm_compute. reflexivity.
  - vm_compute. reflexivity.
  - vm_compute. reflexivity.
  - simpl. lia.
  - by repeat constructor.
Defined.


(** X10 at a session none of whose nodes answers. *)
Lemma lock_stops_the_next_run_witness :
  ∃ w',
    Demo.run [] (Some 1) ∅ Demo.nodes4 = (Returned SameArray, w')
    ∧ @consensusFilter (Demo.platform []) "eth_blockNumber" (Some 1) "0021" "app" "apppk" "aat"
        Demo.configuration w'
      = (Returned SameArray,
         {| redis := redis w'; nodesArray := nodesArray w'; relaysSent := relaysSent w';
            trace := (trace w' ++ [RedisGet Demo.key4; RedisGet ("lock-" ++ Demo.key4)])%list |}).
Proof.
  eexists. split; [vm_compute; reflexivity|].
  apply (@lock_stops_the_next_run (Demo.platform []) "eth_blockNumber" (Some 1) "0021" "app"
           "apppk" "aat" Demo.configuration (Demo.world ∅ Demo.nodes4) _ (Returned SameArray)).
  - vm_compute. reflexivity.
  - vm_compute. reflexivity.
  - vm_compute. reflexivity.
  - intros l. discriminate.
Defined.

(** X11 at a session whose four probes succeed. *)
Lemma published_list_serves_the_next_run_witness :
  ∃ l w' l',
    Demo.run (Demo.heights "0x64" "0x64" "0x63" "0x62") (Some 1) ∅ Demo.nodes4
    = (Returned (FreshArray l), w')
    ∧ (@consensusFilter (Demo.platform (Demo.heights "0x64" "0x64" "0x63" "0x62"))
         "eth_blockNumber" (Some 1) "0021" "app" "apppk" "aat" Demo.configuration w').1
      = Returned (FreshArray l')
    ∧ l' ≡ₚ l.
Proof.
  edestruct (@published_list_serves_the_next_run
               (Demo.platform (Demo.heights "0x64" "0x64" "0x63" "0x62"))
               "eth_blockNumber" (Some 1) "0021" "app" "apppk" "aat" Demo.configuration
               (Demo.world ∅ Demo.nodes4)) as (l' & Hnext & _ & Hperm).
  - vm_compute. reflexivity.
  - vm_compute. reflexivity.
  - vm_compute. reflexivity.
  - vm_compute. reflexivity.
  - apply (bool_decide_unpack _). vm_compute. exact I.
  - eexists _, _, l'. split; [vm_compute; reflexivity|]. split; [|exact Hperm].
    by rewrite Hnext.
Defined.

(** X13 at a repository that holds the application and an empty cache. *)
Lemma fetched_application_is_cached_witness :
  ∃ w1,
    Demo.fetch [Demo.app1] "a1" ∅ = (Returned (Some Demo.app1), w1)
    ∧ @fetchApp (Demo.store [Demo.app1]) "a1" w1
      = (Returned (Some Demo.app1),
         {| redis := redis w1; nodesArray := nodesArray w1; relaysSent := relaysSent w1;
            trace := (trace w1 ++ [RedisGet "a1"])%list |}).
Proof.
  apply (@fetched_application_is_cached (Demo.store [Demo.app1]) "a1" (Demo.world ∅ [])
           Demo.app1).
  - vm_compute. reflexivity.
  - vm_compute. reflexivity.
  - vm_compute. congruence.
  - vm_compute. reflexivity.
Defined.

(** X14 at a load balancer of two applications the repository holds. *)
Lemma verified_list_is_cached_witness :
  ∃ w1,
    @verified (Demo.platform []) (Demo.store [Demo.app1; Demo.app2]) "lb" ["a1"; "a2"]
      (Demo.world ∅ [])
    = (Returned ["a1"; "a2"], w1)
    ∧ (@verified (Demo.platform []) (Demo.store [Demo.app1; Demo.app2]) "lb" [] w1).1
      = Returned ["a1"; "a2"].
Proof.
  eexists. split; [vm_compute; reflexivity|].
  refine (f_equal fst
            (proj1 (@verified_list_is_cached (Demo.platform [])
                      (Demo.store [Demo.app1; Demo.app2]) "lb" ["a1"; "a2"] [] (1 # 2)
                      (Demo.world ∅ []) _ ["a1"; "a2"] _ _ _))).
  - vm_compute. reflexivity.
  - vm_compute. reflexivity.
  - vm_compute. reflexivity.
Defined.
